(** * common-utils: the IP stack parser and the intrusive map

    A shallow embedding of [stack_ip::StackParser]
    (src/stack_ip/parsers/StackParser.h) and of [IntrusiveMap]
    (IntrusiveMap.h), with the properties their specification states.

    Conventions.
    - Addresses are integers; [nullptr] is address 0.  Pointer arithmetic
      ([m_head + hdr_len]) is integer addition.
    - [unsigned] is a 32-bit value, [size_t] a 64-bit one; conversions are
      written out as [to_unsigned] and [to_size_t].
    - A mutating member function is a computation in the state monad
      [ParserM]; a [const] member function is a function of the state. *)

From Stdlib Require Import ZArith Lia Bool List.
From stdpp Require Import base option list gmap.

Local Open Scope Z_scope.

(** ** binio: memory areas *)

Module binio.

Definition nullptr : Z := 0.

(** Modelled from the spec: [binio::MCArea], a layer view made of a
    pointer and a length that borrows from the backing buffer (the
    declaration is not part of the sources at hand). *)
Record MCArea : Type := mkMCArea { area_ptr : Z; area_len : Z }.

#[global] Instance MCArea_eq_dec : EqDecision MCArea.
Proof. solve_decision. Defined.

(** An address lies inside a view. *)
Definition covers (a : MCArea) (addr : Z) : Prop :=
  area_ptr a <= addr < area_ptr a + area_len a.

End binio.

Import binio.

(** ** stack_ip: protocol tags, the packet cursor, the layer interface *)

Module stack_ip.

(** Modelled from the spec: the closed enumeration [Protocol] declared
    in stack_ip.h. *)
Inductive Protocol : Type :=
| L2_ETHERNET | L2_VLAN | L3_IPv4 | L4_GRE | L4_UDP | L4_SCTP | END.

#[global] Instance Protocol_eq_dec : EqDecision Protocol.
Proof. solve_decision. Defined.

(** The six protocols that have a layer module. *)
Definition supported (p : Protocol) : bool :=
  match p with END => false | _ => true end.

Definition to_unsigned (z : Z) : Z := z mod 2 ^ 32.

(** *** The packet cursor *)

(** Modelled from the spec: the packet cursor, the base class
    [DefaultPacketReader] of the parser (stack_ip.h is not part of the
    sources at hand).  [position] is the byte offset into the backing
    buffer, [remaining] the bytes from there to the buffer's end. *)
Record Cursor : Type := mkCursor {
  buffer : MCArea;
  position : Z;
  remaining : Z
}.

#[global] Instance Cursor_eq_dec : EqDecision Cursor.
Proof. solve_decision. Defined.

Inductive Status : Type := Ok | OutOfBounds.

Module Reader.

(** Modelled from the spec: construction of the cursor over a
    buffer, at the buffer's first byte. *)
Definition init (pkt : MCArea) : Cursor :=
  {| buffer := pkt; position := 0; remaining := area_len pkt |}.

(** Modelled from the spec: [m_head], the address of the current
    layer's first byte. *)
Definition m_head (c : Cursor) : Z := area_ptr (buffer c) + position c.

(** Modelled from the spec: [remaining_len()]. *)
Definition remaining_len (c : Cursor) : Z := remaining c.

(** Modelled from the spec: [available_area()], the view from the
    current position to the buffer's end. *)
Definition available_area (c : Cursor) : MCArea :=
  mkMCArea (m_head c) (remaining_len c).

(** Modelled from the spec: [peek(offset_from_position, length)],
    a view or a failure; the cursor is an argument only. *)
Definition peek (offset length : Z) (c : Cursor) : option MCArea :=
  if remaining c <? offset + length then None
  else Some (mkMCArea (m_head c + offset) length).

(** Modelled from the spec: [advance(length)], which fails if
    [length > remaining] and otherwise moves [position += length],
    [remaining -= length]. *)
Definition advance (length : Z) (c : Cursor) : Status * Cursor :=
  if remaining c <? length then (OutOfBounds, c)
  else (Ok, {| buffer := buffer c;
               position := position c + length;
               remaining := remaining c - length |}).

(** The cursor invariant of the data model. *)
Definition inv (c : Cursor) : Prop :=
  position c + remaining c = area_len (buffer c) /\ 0 <= remaining c.

(** The operations of the cursor, to run them in sequence. *)
Inductive Op : Type :=
| OpPeek (offset length : Z)
| OpAdvance (length : Z)
| OpRemainingLen.

Definition step (o : Op) (c : Cursor) : Cursor :=
  match o with
  | OpPeek _ _ => c
  | OpAdvance length => snd (advance length c)
  | OpRemainingLen => c
  end.

Definition run (ops : list Op) (c : Cursor) : Cursor :=
  fold_left (fun c o => step o c) ops c.

End Reader.

(** *** The layer interface *)

Module Layer.

(** The static interface a protocol module ([Ethernet], [Vlan],
    [IPv4], [Gre], [Udp], [Sctp]) offers to the parser.  The modules
    are not part of the sources at hand: the parser is embedded over
    six arbitrary implementations.  [validate_packet] and the two
    lengths only inspect the reader; [next] is handed the reader by
    reference and returns it, possibly moved. *)
Record t : Type := mk {
  validate_packet : Cursor -> bool;
  next : Cursor -> Protocol * Cursor;
  length_header : Cursor -> Z;
  length_payload : Cursor -> Z
}.

(** Modelled from the spec: the capability set of a protocol module,
    four functions of the cursor. *)
Record Spec : Type := mkSpec {
  validate : Cursor -> bool;
  header_length : Cursor -> Z;
  payload_length : Cursor -> Z;
  next_protocol : Cursor -> Protocol
}.

(** Modelled from the spec: the module's [next], which identifies the
    next protocol by peeking and then advances the cursor past the
    current header. *)
Definition spec_next (m : Spec) (c : Cursor) : Protocol * Cursor :=
  let next_proto := next_protocol m c in
  let '(_, c') := Reader.advance (to_unsigned (header_length m c)) c in
  (next_proto, c').

Definition of_spec (m : Spec) : t :=
  {| validate_packet := validate m;
     next := spec_next m;
     length_header := header_length m;
     length_payload := payload_length m |}.

End Layer.

(** *** StackParser *)

Module StackParser.

(** [class StackParser : protected DefaultPacketReader], with its one
    data member [proto]. *)
Record t : Type := mk {
  base : Cursor;
  proto : Protocol
}.

#[global] Instance t_eq_dec : EqDecision t.
Proof. solve_decision. Defined.

(** The monad of the mutating member functions. *)
Definition ParserM (A : Type) : Type := t -> A * t.

Definition ret {A} (a : A) : ParserM A := fun s => (a, s).

Definition bind {A B} (m : ParserM A) (k : A -> ParserM B) : ParserM B :=
  fun s => let '(a, s') := m s in k a s'.

(** Read the object through a [const] member function. *)
Definition gets {A} (f : t -> A) : ParserM A := fun s => (f s, s).

(** [proto = p;] *)
Definition set_proto (p : Protocol) : ParserM unit :=
  fun s => (tt, {| base := base s; proto := p |}).

(** Hand [*this] to a layer function that takes the reader by
    reference. *)
Definition with_reader {A} (f : Cursor -> A * Cursor) : ParserM A :=
  fun s => let '(a, c) := f (base s) in (a, {| base := c; proto := proto s |}).

Notation "x <- m ;; k" := (bind m (fun x => k))
  (at level 100, m at next level, k at level 200, right associativity).
Notation "m ;;; k" := (bind m (fun _ => k))
  (at level 100, k at level 200, right associativity).

Section Parser.

Variables Ethernet Vlan IPv4 Gre Udp Sctp : Layer.t.

(** [StackParser(binio::MCArea pkt) : Base(pkt), proto(Protocol::END)] *)
Definition construct (pkt : MCArea) : t :=
  {| base := Reader.init pkt; proto := END |}.

(** The [switch] of [validate_packet]: the verdict of the layer
    module selected by the tag, [false] without one. *)
Definition validates (new_proto : Protocol) (c : Cursor) : bool :=
  match new_proto with
  | L2_ETHERNET => Layer.validate_packet Ethernet c
  | L2_VLAN => Layer.validate_packet Vlan c
  | L3_IPv4 => Layer.validate_packet IPv4 c
  | L4_GRE => Layer.validate_packet Gre c
  | L4_UDP => Layer.validate_packet Udp c
  | L4_SCTP => Layer.validate_packet Sctp c
  | END => false
  end.

Definition validate_packet (new_proto : Protocol) : ParserM Protocol :=
  result <- gets (fun s => validates new_proto (base s)) ;;
  ret (if negb result then END else new_proto).

Definition protocol (s : t) : Protocol := proto s.

Definition parse (proto_first : Protocol) : ParserM bool :=
  p <- validate_packet proto_first ;;
  set_proto p ;;;
  gets (fun s => bool_decide (proto s <> END)).

(** The [switch] of [next]: the candidate the current layer names,
    [END] without a current layer. *)
Definition next_candidate : ParserM Protocol :=
  p <- gets proto ;;
  match p with
  | L2_ETHERNET => with_reader (Layer.next Ethernet)
  | L2_VLAN => with_reader (Layer.next Vlan)
  | L3_IPv4 => with_reader (Layer.next IPv4)
  | L4_GRE => with_reader (Layer.next Gre)
  | L4_UDP => with_reader (Layer.next Udp)
  | L4_SCTP => with_reader (Layer.next Sctp)
  | END => ret END
  end.

Definition next : ParserM Protocol :=
  next_proto <- next_candidate ;;
  p <- validate_packet next_proto ;;
  set_proto p ;;;
  gets proto.

Definition packet (s : t) : MCArea := Reader.available_area (base s).

(** [const uint8_t* header(unsigned& out_hdr_len) const]: the
    returned pointer and the final value of the out-parameter. *)
Definition header_ref (out_hdr_len : Z) (s : t) : Z * Z :=
  match proto s with
  | L2_ETHERNET =>
      (Reader.m_head (base s), to_unsigned (Layer.length_header Ethernet (base s)))
  | L2_VLAN =>
      (Reader.m_head (base s), to_unsigned (Layer.length_header Vlan (base s)))
  | L3_IPv4 =>
      (Reader.m_head (base s), to_unsigned (Layer.length_header IPv4 (base s)))
  | L4_GRE =>
      (Reader.m_head (base s), to_unsigned (Layer.length_header Gre (base s)))
  | L4_UDP =>
      (Reader.m_head (base s), to_unsigned (Layer.length_header Udp (base s)))
  | L4_SCTP =>
      (Reader.m_head (base s), to_unsigned (Layer.length_header Sctp (base s)))
  | END => (nullptr, out_hdr_len)
  end.

Definition header (s : t) : MCArea :=
  let hdr_len := 0 in
  let '(ptr, hdr_len) := header_ref hdr_len s in
  mkMCArea ptr hdr_len.

(** [const uint8_t* payload(unsigned& out_payload_len) const] *)
Definition payload_ref (out_payload_len : Z) (s : t) : Z * Z :=
  let hdr_len := 0 in
  let switch :=
    match proto s with
    | L2_ETHERNET => Some (to_unsigned (Layer.length_payload Ethernet (base s)))
    | L2_VLAN => Some (to_unsigned (Layer.length_payload Vlan (base s)))
    | L3_IPv4 => Some (to_unsigned (Layer.length_payload IPv4 (base s)))
    | L4_GRE => Some (to_unsigned (Layer.length_payload Gre (base s)))
    | L4_UDP => Some (to_unsigned (Layer.length_payload Udp (base s)))
    | L4_SCTP => Some (to_unsigned (Layer.length_payload Sctp (base s)))
    | END => None
    end in
  match switch with
  | None => (nullptr, out_payload_len)
  | Some out_payload_len =>
      let '(_, hdr_len) := header_ref hdr_len s in
      (Reader.m_head (base s) + hdr_len, out_payload_len)
  end.

Definition payload (s : t) : MCArea :=
  let payload_len := 0 in
  let '(ptr, payload_len) := payload_ref payload_len s in
  mkMCArea ptr payload_len.

(** [n] calls of [next()] in a row. *)
Fixpoint next_n (n : nat) (s : t) : t :=
  match n with
  | O => s
  | S n' => next_n n' (snd (next s))
  end.

(** The four [const] accessors, called through the object. *)
Inductive Accessor : Type :=
| CallProtocol | CallHeader | CallPayload | CallPacket.

Inductive Answer : Type :=
| IsProtocol (p : Protocol)
| IsArea (a : MCArea).

Definition call (a : Accessor) : ParserM Answer :=
  match a with
  | CallProtocol => gets (fun s => IsProtocol (protocol s))
  | CallHeader => gets (fun s => IsArea (header s))
  | CallPayload => gets (fun s => IsArea (payload s))
  | CallPacket => gets (fun s => IsArea (packet s))
  end.

Fixpoint calls (l : list Accessor) : ParserM (list Answer) :=
  match l with
  | [] => ret []
  | a :: l' => r <- call a ;; rs <- calls l' ;; ret (r :: rs)
  end.

End Parser.

End StackParser.

End stack_ip.

(** ** Sample layers

    Six protocol modules for frames whose headers have their minimum
    size and whose type fields name the next layer of an
    Ethernet / IPv4 / UDP stack.  They run the parser on concrete
    buffers. *)

Module Samples.

Import stack_ip.

Definition fixed (hdr : Z) (nxt : Protocol) : Layer.Spec :=
  {| Layer.validate := fun c => hdr <=? Reader.remaining_len c;
     Layer.header_length := fun _ => hdr;
     Layer.payload_length := fun c => Reader.remaining_len c - hdr;
     Layer.next_protocol := fun _ => nxt |}.

Definition Ethernet : Layer.Spec := fixed 14 L3_IPv4.
Definition Vlan : Layer.Spec := fixed 4 L3_IPv4.
Definition IPv4 : Layer.Spec := fixed 20 L4_UDP.
Definition Gre : Layer.Spec := fixed 4 L3_IPv4.
Definition Udp : Layer.Spec := fixed 8 END.
Definition Sctp : Layer.Spec := fixed 12 END.

(** A 60-byte frame at address 4096. *)
Definition frame : MCArea := mkMCArea 4096 60.

Definition fresh : StackParser.t := StackParser.construct frame.

Definition parse (p : Protocol) : StackParser.ParserM bool :=
  StackParser.parse (Layer.of_spec Ethernet) (Layer.of_spec Vlan)
    (Layer.of_spec IPv4) (Layer.of_spec Gre) (Layer.of_spec Udp)
    (Layer.of_spec Sctp) p.

Definition next : StackParser.ParserM Protocol :=
  StackParser.next (Layer.of_spec Ethernet) (Layer.of_spec Vlan)
    (Layer.of_spec IPv4) (Layer.of_spec Gre) (Layer.of_spec Udp)
    (Layer.of_spec Sctp).

Definition header : StackParser.t -> MCArea :=
  StackParser.header (Layer.of_spec Ethernet) (Layer.of_spec Vlan)
    (Layer.of_spec IPv4) (Layer.of_spec Gre) (Layer.of_spec Udp)
    (Layer.of_spec Sctp).

Definition payload : StackParser.t -> MCArea :=
  StackParser.payload (Layer.of_spec Ethernet) (Layer.of_spec Vlan)
    (Layer.of_spec IPv4) (Layer.of_spec Gre) (Layer.of_spec Udp)
    (Layer.of_spec Sctp).

(** The parser anchored on the Ethernet layer of [frame]. *)
Definition at_ethernet : StackParser.t := snd (parse L2_ETHERNET fresh).

(** A 10-byte buffer, too short for the sample Ethernet header. *)
Definition runt : MCArea := mkMCArea 8192 10.

Definition fresh_runt : StackParser.t := StackParser.construct runt.

(** The parser on the UDP layer of [frame], two steps in. *)
Definition at_udp : StackParser.t := snd (next (snd (next at_ethernet))).


End Samples.

(** ** IntrusiveMap *)

Module IntrusiveMap.

Definition to_size_t (z : Z) : Z := z mod 2 ^ 64.

Definition SIZE_MAX : Z := 2 ^ 64 - 1.

(** [struct Hook]: the part of a node [V] the map works on.  A node
    pointer [V*] is [None] for [nullptr] and [Some a] for the node at
    address [a]. *)
Module Hook.
Record t : Type := mk {
  im_next : option Z;
  im_key : Z;
  im_linked : bool
}.
#[global] Instance t_eq_dec : EqDecision t.
Proof. solve_decision. Defined.
End Hook.

(** [struct Bucket] *)
Module Bucket.
Record t : Type := mk {
  list : option Z;
  size : Z
}.
#[global] Instance t_eq_dec : EqDecision t.
Proof. solve_decision. Defined.
End Bucket.

(** The map object, with the memory that holds the nodes it links: the
    map is intrusive, its chains live in the nodes. *)
Record t : Type := mk {
  bucket_list_size : Z;
  bucket_list : list Bucket.t;
  elements : Z;
  nodes : gmap Z Hook.t
}.

(** [sanity_check(const V& value)] *)
Definition sanity_check (value : Hook.t) : bool := negb (Hook.im_linked value).

(** [find(Bucket& bucket, K key)], as the loop over [cur] started at
    [bucket.list]; every iteration takes one unit of [fuel].  The outer
    [None] is a run that did not return: out of fuel, or a pointer to no
    node. *)
Fixpoint find_bucket (fuel : nat) (mem : gmap Z Hook.t) (cur : option Z) (key : Z)
  : option (option Z) :=
  match cur with
  | None => Some None
  | Some a =>
      match fuel with
      | O => None
      | S fuel' =>
          h ← mem !! a;
          if bool_decide (Hook.im_key h = key) then Some (Some a)
          else find_bucket fuel' mem (Hook.im_next h) key
      end
  end.

(** [link_front(Bucket& bucket, K key, V& value)]; the bucket is
    [bucket_list[index]], the node is the one at address [value]. *)
Definition link_front (index : nat) (key : Z) (value : Z) (m : t) : option t :=
  v ← nodes m !! value;
  bucket ← bucket_list m !! index;
  let v' := {| Hook.im_next := Bucket.list bucket;
               Hook.im_linked := true;
               Hook.im_key := key |} in
  let bucket' := {| Bucket.list := Some value;
                    Bucket.size := to_size_t (Bucket.size bucket + 1) |} in
  Some {| bucket_list_size := bucket_list_size m;
          bucket_list := <[index := bucket']> (bucket_list m);
          elements := to_size_t (elements m + 1);
          nodes := <[value := v']> (nodes m) |}.

(** [key % bucket_list_size], with the key converted to [size_t]. *)
Definition bucket_index (key : Z) (m : t) : nat :=
  Z.to_nat (to_size_t key mod bucket_list_size m).

(** [put(K key, V& value)]; [None] is a run that did not return
    (see [find_bucket]) or has no defined behaviour: a division by zero,
    an index outside the bucket array, a reference to no node. *)
Definition put (fuel : nat) (key : Z) (value : Z) (m : t) : option (bool * t) :=
  v ← nodes m !! value;
  if sanity_check v then
    if bool_decide (bucket_list_size m = 0) then None
    else
      let index := bucket_index key m in
      bucket ← bucket_list m !! index;
      found ← find_bucket fuel (nodes m) (Bucket.list bucket) key;
      match found with
      | None => m' ← link_front index key value m; Some (true, m')
      | Some _ => Some (false, m)
      end
  else Some (false, m).

(** The nodes of a chain, in order, when it ends within [fuel] links. *)
Fixpoint chain (fuel : nat) (mem : gmap Z Hook.t) (cur : option Z) : option (list Z) :=
  match cur with
  | None => Some []
  | Some a =>
      match fuel with
      | O => None
      | S fuel' =>
          h ← mem !! a;
          l ← chain fuel' mem (Hook.im_next h);
          Some (a :: l)
      end
  end.

(** Some node of the chain [l] carries [key]. *)
Definition key_in_chain (mem : gmap Z Hook.t) (key : Z) (l : list Z) : Prop :=
  exists a h, a ∈ l /\ mem !! a = Some h /\ Hook.im_key h = key.

(** *** A sample map: two buckets, node 200 linked under key 3 in
    bucket 1, node 100 not linked. *)
Definition sample_nodes : gmap Z Hook.t :=
  <[100 := Hook.mk None 0 false]> (<[200 := Hook.mk None 3 true]> ∅).

Definition sample : t :=
  {| bucket_list_size := 2;
     bucket_list := [Bucket.mk None 0; Bucket.mk (Some 200) 1];
     elements := 1;
     nodes := sample_nodes |}.

(** *** The rest of the class *)

(** The writes [a->im_next = x] and [a->im_linked = x]; [None] when no
    node lives at [a]. *)
Definition set_im_next (a : Z) (x : option Z) (mem : gmap Z Hook.t)
  : option (gmap Z Hook.t) :=
  h ← mem !! a;
  Some (<[a := {| Hook.im_next := x;
                  Hook.im_key := Hook.im_key h;
                  Hook.im_linked := Hook.im_linked h |}]> mem).

Definition set_im_linked (a : Z) (x : bool) (mem : gmap Z Hook.t)
  : option (gmap Z Hook.t) :=
  h ← mem !! a;
  Some (<[a := {| Hook.im_next := Hook.im_next h;
                  Hook.im_key := Hook.im_key h;
                  Hook.im_linked := x |}]> mem).

(** [IntrusiveMap(Bucket* bucket_list, size_t bucket_list_size)] over
    an array of default-constructed buckets. *)
Definition construct (bucket_list_size : Z) (mem : gmap Z Hook.t) : t :=
  {| bucket_list_size := bucket_list_size;
     bucket_list := replicate (Z.to_nat bucket_list_size) (Bucket.mk None 0);
     elements := 0;
     nodes := mem |}.

(** [unlink_front(Bucket& bucket)], the bucket being [bucket_list[index]]. *)
Definition unlink_front (index : nat) (m : t) : option t :=
  bucket ← bucket_list m !! index;
  tmp_value ← Bucket.list bucket;
  h ← nodes m !! tmp_value;
  mem1 ← set_im_next tmp_value None (nodes m);
  mem2 ← set_im_linked tmp_value false mem1;
  Some {| bucket_list_size := bucket_list_size m;
          bucket_list :=
            <[index := {| Bucket.list := Hook.im_next h;
                          Bucket.size := to_size_t (Bucket.size bucket - 1) |}]>
              (bucket_list m);
          elements := to_size_t (elements m - 1);
          nodes := mem2 |}.

(** [unlink_next(Bucket& bucket, V& value)] *)
Definition unlink_next (index : nat) (value : Z) (m : t) : option t :=
  bucket ← bucket_list m !! index;
  v ← nodes m !! value;
  tmp_value ← Hook.im_next v;
  h ← nodes m !! tmp_value;
  mem1 ← set_im_next value (Hook.im_next h) (nodes m);
  mem2 ← set_im_next tmp_value None mem1;
  mem3 ← set_im_linked tmp_value false mem2;
  Some {| bucket_list_size := bucket_list_size m;
          bucket_list :=
            <[index := {| Bucket.list := Bucket.list bucket;
                          Bucket.size := to_size_t (Bucket.size bucket - 1) |}]>
              (bucket_list m);
          elements := to_size_t (elements m - 1);
          nodes := mem3 |}.

(** [find(Bucket& bucket, K key, V*& prev)]: the returned pointer and
    the final value of [prev]. *)
Fixpoint find_bucket_prev (fuel : nat) (mem : gmap Z Hook.t) (cur : option Z)
    (key : Z) (prev : option Z) : option (option Z * option Z) :=
  match cur with
  | None => Some (None, prev)
  | Some a =>
      match fuel with
      | O => None
      | S fuel' =>
          h ← mem !! a;
          if bool_decide (Hook.im_key h = key) then Some (Some a, prev)
          else find_bucket_prev fuel' mem (Hook.im_next h) key (Some a)
      end
  end.

(** [remove(K key)] *)
Definition remove (fuel : nat) (key : Z) (m : t) : option (bool * t) :=
  if bool_decide (bucket_list_size m = 0) then None
  else
    let index := bucket_index key m in
    bucket ← bucket_list m !! index;
    let prev := None in
    found ← find_bucket_prev fuel (nodes m) (Bucket.list bucket) key prev;
    let '(result, prev) := found in
    match result with
    | Some _ =>
        if bool_decide (result = Bucket.list bucket)
        then m' ← unlink_front index m; Some (true, m')
        else p ← prev; m' ← unlink_next index p m; Some (true, m')
    | None => Some (false, m)
    end.

(** The inner loop of [reset()]: [while(bucket_list[i].list)
    unlink_front(bucket_list[i])]. *)
Fixpoint reset_bucket (fuel : nat) (i : nat) (m : t) : option t :=
  bucket ← bucket_list m !! i;
  match Bucket.list bucket with
  | None => Some m
  | Some _ =>
      match fuel with
      | O => None
      | S fuel' => m' ← unlink_front i m; reset_bucket fuel' i m'
      end
  end.

(** [reset()]; every bucket's loop has [fuel] iterations at hand. *)
Definition reset (fuel : nat) (m : t) : option t :=
  fold_left (fun acc i => m' ← acc; reset_bucket fuel i m')
    (seq 0 (Z.to_nat (bucket_list_size m))) (Some m).

(** [find(K key)] *)
Definition find (fuel : nat) (key : Z) (m : t) : option (option Z) :=
  if bool_decide (bucket_list_size m = 0) then None
  else
    bucket ← bucket_list m !! bucket_index key m;
    find_bucket fuel (nodes m) (Bucket.list bucket) key.

(** [size()] *)
Definition size (m : t) : Z := elements m.

(** [begin(size_t bucket)], [end()] and the iterator's [operator++]; an
    iterator is its node pointer. *)
Definition begin (bucket : nat) (m : t) : option (option Z) :=
  b ← bucket_list m !! bucket; Some (Bucket.list b).

Definition iterator_end : option Z := None.

Definition iterator_incr (mem : gmap Z Hook.t) (it : option Z) : option (option Z) :=
  a ← it; h ← mem !! a; Some (Hook.im_next h).

(** The loop [for (it = begin(bucket); it != end(); ++it)], collecting
    the nodes it stops at. *)
Fixpoint iterate_from (fuel : nat) (mem : gmap Z Hook.t) (it : option Z)
  : option (list Z) :=
  if bool_decide (it = iterator_end) then Some []
  else
    match fuel with
    | O => None
    | S fuel' =>
        a ← it;
        it' ← iterator_incr mem it;
        l ← iterate_from fuel' mem it';
        Some (a :: l)
    end.

Definition iterate (fuel : nat) (bucket : nat) (m : t) : option (list Z) :=
  it ← begin bucket m; iterate_from fuel (nodes m) it.

(** *** Sequences of calls *)

(** The calls that change a map. *)
Inductive Op : Type :=
| OpPut (key value : Z)
| OpRemove (key : Z)
| OpReset.

Definition step (fuel : nat) (o : Op) (m : t) : option t :=
  match o with
  | OpPut key value => snd <$> put fuel key value m
  | OpRemove key => snd <$> remove fuel key m
  | OpReset => reset fuel m
  end.

Fixpoint run (fuel : nat) (ops : list Op) (m : t) : option t :=
  match ops with
  | [] => Some m
  | o :: ops' => m' ← step fuel o m; run fuel ops' m'
  end.


(** *** Well-formed maps *)

(** [l] is the chain of nodes that starts at [cur] and ends at
    [nullptr]. *)
Inductive is_chain (mem : gmap Z Hook.t) : option Z -> list Z -> Prop :=
| is_chain_nil : is_chain mem None []
| is_chain_cons a h l :
    mem !! a = Some h ->
    is_chain mem (Hook.im_next h) l ->
    is_chain mem (Some a) (a :: l).

Definition key_at (mem : gmap Z Hook.t) (a : Z) : option Z :=
  Hook.im_key <$> mem !! a.

(** The map [m] holds the chains [ls], one per bucket: every bucket
    heads its chain and counts it, every node of a chain is marked
    linked and sits in the bucket of its key, no two nodes of a chain
    carry the same key, and [elements] counts the nodes of all
    chains. *)
Record wf (m : t) (ls : list (list Z)) : Prop := mk_wf {
  wf_size : 0 < bucket_list_size m;
  wf_buckets : length (bucket_list m) = Z.to_nat (bucket_list_size m);
  wf_length : length ls = length (bucket_list m);
  wf_chain : forall i b l,
    bucket_list m !! i = Some b -> ls !! i = Some l ->
    is_chain (nodes m) (Bucket.list b) l /\
    Bucket.size b = Z.of_nat (length l);
  wf_nodes : forall i l a,
    ls !! i = Some l -> a ∈ l ->
    exists h, nodes m !! a = Some h /\ Hook.im_linked h = true /\
              bucket_index (Hook.im_key h) m = i;
  wf_keys : forall i l, ls !! i = Some l -> NoDup (key_at (nodes m) <$> l);
  wf_elements : elements m = Z.of_nat (length (concat ls));
  wf_bound : elements m <= SIZE_MAX
}.

(** The first node of a chain that carries [key], if any. *)
Fixpoint first_key (mem : gmap Z Hook.t) (key : Z) (l : list Z) : option Z :=
  match l with
  | [] => None
  | a :: l' =>
      if bool_decide (key_at mem a = Some key) then Some a
      else first_key mem key l'
  end.


(** A check of [wf] that runs. *)
Definition node_check (m : t) (i : nat) (a : Z) : bool :=
  match nodes m !! a with
  | Some h => Hook.im_linked h && bool_decide (bucket_index (Hook.im_key h) m = i)
  | None => false
  end.

Definition bucket_check (m : t) (i : nat) (b : Bucket.t) (l : list Z) : bool :=
  bool_decide (chain (length l) (nodes m) (Bucket.list b) = Some l)
  && bool_decide (Bucket.size b = Z.of_nat (length l))
  && forallb (node_check m i) l
  && bool_decide (NoDup (key_at (nodes m) <$> l)).

Fixpoint buckets_check (m : t) (i : nat) (bs : list Bucket.t) (ls : list (list Z))
  : bool :=
  match bs, ls with
  | [], [] => true
  | b :: bs', l :: ls' => bucket_check m i b l && buckets_check m (S i) bs' ls'
  | _, _ => false
  end.

Definition wf_check (m : t) (ls : list (list Z)) : bool :=
  bool_decide (0 < bucket_list_size m)
  && bool_decide (length (bucket_list m) = Z.to_nat (bucket_list_size m))
  && buckets_check m 0 (bucket_list m) ls
  && bool_decide (elements m = Z.of_nat (length (concat ls)))
  && bool_decide (elements m <= SIZE_MAX).

(** The chains of [sample]. *)
Definition sample_chains : list (list Z) := [[]; [200]].

(** [sample] with two more nodes in bucket 1: 300 under key 5 behind
    the head 400 under key 7. *)
Definition sample3 : t :=
  {| bucket_list_size := 2;
     bucket_list := [Bucket.mk None 0; Bucket.mk (Some 400) 3];
     elements := 3;
     nodes :=
       <[100 := Hook.mk None 0 false]>
         (<[200 := Hook.mk None 3 true]>
            (<[300 := Hook.mk (Some 200) 5 true]>
               (<[400 := Hook.mk (Some 300) 7 true]> ∅))) |}.

Definition sample3_chains : list (list Z) := [[]; [400; 300; 200]].

End IntrusiveMap.

(** * Properties *)

(** ** The packet cursor *)

Module ReaderFacts.

Import stack_ip.

Lemma advance_inv length c : Reader.inv c -> Reader.inv (snd (Reader.advance length c)).
Proof.
  unfold Reader.inv, Reader.advance. intros [Hsum Hrem].
  destruct (Z.ltb_spec (remaining c) length); simpl; lia.
Qed.

Lemma step_inv o c : Reader.inv c -> Reader.inv (Reader.step o c).
Proof.
  destruct o; simpl; auto using advance_inv.
Qed.

Lemma run_inv ops : forall c, Reader.inv c -> Reader.inv (Reader.run ops c).
Proof.
  unfold Reader.run.
  induction ops as [|o ops IH]; simpl; intros c Hc; [exact Hc|].
  apply IH, step_inv, Hc.
Qed.

(** C5: on a cursor that satisfies [position + remaining = buffer
    length] and [0 <= remaining], [advance(length)] returns
    [OutOfBounds] and changes nothing when [length] exceeds
    [remaining]; otherwise it returns [Ok], adds [length] to [position]
    and takes it from [remaining]; and after any sequence of cursor
    operations the sum is still the buffer length and [remaining] is
    not negative. *)
Theorem advance_spec (c : Cursor) (length : Z) :
  Reader.inv c ->
  (remaining c < length -> Reader.advance length c = (OutOfBounds, c)) /\
  (length <= remaining c ->
     exists c', Reader.advance length c = (Ok, c') /\
       position c' = position c + length /\
       remaining c' = remaining c - length /\
       buffer c' = buffer c) /\
  (forall ops,
     let c' := Reader.run ops c in
     position c' + remaining c' = area_len (buffer c') /\
     0 <= remaining c' /\
     area_len (buffer c') = area_len (buffer c)).
Proof.
  intros Hinv. split; [|split].
  - intros Hlt. unfold Reader.advance.
    destruct (Z.ltb_spec (remaining c) length); [reflexivity | lia].
  - intros Hle. unfold Reader.advance.
    destruct (Z.ltb_spec (remaining c) length); [lia|].
    eexists; split; [reflexivity|]. simpl. auto.
  - intros ops c'. subst c'.
    destruct (run_inv ops c Hinv) as [Hsum Hrem].
    split; [exact Hsum|]. split; [exact Hrem|].
    clear. revert c. unfold Reader.run.
    induction ops as [|o ops IH]; simpl; intros c; [reflexivity|].
    rewrite IH. destruct o as [off len|len|]; simpl; try reflexivity.
    unfold Reader.advance. destruct (remaining c <? len); reflexivity.
Qed.

Lemma advance_spec_witness :
  exists c', Reader.advance 14 (Reader.init Samples.frame) = (Ok, c') /\
    position c' = position (Reader.init Samples.frame) + 14 /\
    remaining c' = remaining (Reader.init Samples.frame) - 14 /\
    buffer c' = buffer (Reader.init Samples.frame).
Proof.
  apply (advance_spec (Reader.init Samples.frame) 14).
  - unfold Reader.inv. simpl. lia.
  - simpl. lia.
Defined.

End ReaderFacts.

(** ** The stack parser, over any six protocol modules *)

Module StackParserFacts.

Import stack_ip StackParser.

Ltac run_parser :=
  unfold parse, next, next_candidate, validate_packet, call,
    bind, gets, ret, set_proto, with_reader, protocol; simpl.

Section Facts.

Variables Ethernet Vlan IPv4 Gre Udp Sctp : Layer.t.

Abbreviation validates := (StackParser.validates Ethernet Vlan IPv4 Gre Udp Sctp).
Abbreviation validate_packet := (StackParser.validate_packet Ethernet Vlan IPv4 Gre Udp Sctp).
Abbreviation parse := (StackParser.parse Ethernet Vlan IPv4 Gre Udp Sctp).
Abbreviation next_candidate := (StackParser.next_candidate Ethernet Vlan IPv4 Gre Udp Sctp).
Abbreviation next := (StackParser.next Ethernet Vlan IPv4 Gre Udp Sctp).
Abbreviation next_n := (StackParser.next_n Ethernet Vlan IPv4 Gre Udp Sctp).
Abbreviation header := (StackParser.header Ethernet Vlan IPv4 Gre Udp Sctp).
Abbreviation payload := (StackParser.payload Ethernet Vlan IPv4 Gre Udp Sctp).
Abbreviation call := (StackParser.call Ethernet Vlan IPv4 Gre Udp Sctp).
Abbreviation calls := (StackParser.calls Ethernet Vlan IPv4 Gre Udp Sctp).

Lemma validate_packet_run new_proto s :
  validate_packet new_proto s
  = (if validates new_proto (base s) then new_proto else END, s).
Proof.
  run_parser. destruct (validates new_proto (base s)); reflexivity.
Qed.

Lemma parse_run proto_first s :
  parse proto_first s
  = let p := if validates proto_first (base s) then proto_first else END in
    (bool_decide (p <> END), {| base := base s; proto := p |}).
Proof.
  unfold StackParser.parse, bind. rewrite validate_packet_run. reflexivity.
Qed.

Lemma next_run s :
  next s
  = let p := if validates (fst (next_candidate s)) (base (snd (next_candidate s)))
             then fst (next_candidate s) else END in
    (p, {| base := base (snd (next_candidate s)); proto := p |}).
Proof.
  unfold StackParser.next, bind.
  destruct (next_candidate s) as [candidate s1].
  rewrite validate_packet_run. reflexivity.
Qed.

Lemma next_at_END s : proto s = END -> next s = (END, s).
Proof.
  destruct s as [c p]. simpl. intros ->. reflexivity.
Qed.

(** C1: [parse(proto_first)] runs the validation of [proto_first] on the
    reader as it stands; when the validation succeeds the current
    protocol becomes [proto_first], when it fails the current protocol
    becomes [END]; the call returns [true] exactly when the resulting
    current protocol is not [END]. *)
Theorem parse_spec (proto_first : Protocol) (s : t) :
  let r := fst (parse proto_first s) in
  let s' := snd (parse proto_first s) in
  (validates proto_first (base s) = true -> protocol s' = proto_first) /\
  (validates proto_first (base s) = false -> protocol s' = END) /\
  (r = true <-> protocol s' <> END) /\
  base s' = base s.
Proof.
  rewrite parse_run. unfold protocol. simpl.
  destruct (validates proto_first (base s)) eqn:Hv; simpl.
  - repeat split; try congruence; apply bool_decide_eq_true.
  - repeat split; try congruence; apply bool_decide_eq_true.
Qed.

(** C2: the value [next()] returns is the value [protocol()] returns
    right after it; it is the candidate named by the current layer when
    that candidate validates on the reader as the layer left it, and
    [END] when it does not (an unrecognized candidate is [END], which
    never validates). *)
Theorem next_spec (s : t) :
  let r := fst (next s) in
  let s' := snd (next s) in
  let candidate := fst (next_candidate s) in
  let c := base (snd (next_candidate s)) in
  r = protocol s' /\
  (validates candidate c = true -> r = candidate) /\
  (validates candidate c = false -> r = END) /\
  validates END c = false.
Proof.
  rewrite next_run. unfold protocol. simpl.
  destruct (next_candidate s) as [candidate s1]. simpl.
  destruct (validates candidate (base s1)); repeat split; congruence.
Qed.

(** C3: when the current protocol is [END], [next()] returns [END] and
    leaves the current protocol and the reader as they are, and so does
    any number of [next()] calls in a row. *)
Theorem END_is_terminal (s : t) :
  proto s = END ->
  fst (next s) = END /\
  snd (next s) = s /\
  forall n, next_n n s = s /\ fst (next (next_n n s)) = END.
Proof.
  intros HEND. pose proof (next_at_END s HEND) as Hnext.
  rewrite Hnext. simpl. repeat split; trivial.
  - induction n as [|n IH]; simpl; [reflexivity|].
    rewrite Hnext. exact IH.
  - assert (Hn : next_n n s = s).
    { induction n as [|n IH]; simpl; [reflexivity|]. rewrite Hnext. exact IH. }
    rewrite Hn, Hnext. reflexivity.
Qed.

(** C4: when the current protocol is one of the six supported ones, the
    payload view starts at the address of the header view plus the
    header view's length, and no address lies in both views. *)
Theorem header_payload_contiguous (s : t) :
  supported (proto s) = true ->
  area_ptr (payload s) = area_ptr (header s) + area_len (header s) /\
  (forall addr, covers (header s) addr -> covers (payload s) addr -> False).
Proof.
  destruct s as [c p]. unfold covers.
  destruct p; simpl; intros Hs; try discriminate;
    (split; [reflexivity | intros addr [_ Hh] [Hp _]; lia]).
Qed.

(** C7: a parser just constructed over any buffer has the current
    protocol [END]: [protocol()] returns [END], and so does a [next()]
    call on it. *)
Theorem construct_is_END (pkt : MCArea) :
  proto (construct pkt) = END /\
  protocol (construct pkt) = END /\
  fst (next (construct pkt)) = END.
Proof.
  repeat split.
Qed.

(** C8: a sequence of calls of [protocol()], [header()], [payload()]
    and [packet()], with no [next()] or [parse()] in between, leaves
    the parser as it was, and every call in it answers what the same
    call answers on that parser. *)
Theorem accessors_idempotent (l : list Accessor) (s : t) :
  calls l s = (map (fun a => fst (call a s)) l, s) /\
  (forall a, snd (call a s) = s).
Proof.
  split.
  - induction l as [|a l IH]; simpl; [reflexivity|].
    unfold bind. destruct a; simpl; rewrite IH; reflexivity.
  - intros a. destruct a; reflexivity.
Qed.

(** C9: when the current protocol is [END], [header()] and [payload()]
    return a view with a null pointer and length zero, and [packet()]
    returns the view of the rest of the buffer. *)
Theorem views_at_END (s : t) :
  proto s = END ->
  header s = mkMCArea nullptr 0 /\
  payload s = mkMCArea nullptr 0 /\
  packet s = Reader.available_area (base s) /\
  packet s = mkMCArea (Reader.m_head (base s)) (Reader.remaining_len (base s)).
Proof.
  destruct s as [c p]. simpl. intros ->. repeat split.
Qed.

End Facts.

Lemma END_is_terminal_witness :
  fst (Samples.next Samples.fresh) = END /\
  snd (Samples.next Samples.fresh) = Samples.fresh.
Proof.
  destruct (END_is_terminal (Layer.of_spec Samples.Ethernet)
    (Layer.of_spec Samples.Vlan) (Layer.of_spec Samples.IPv4)
    (Layer.of_spec Samples.Gre) (Layer.of_spec Samples.Udp)
    (Layer.of_spec Samples.Sctp) Samples.fresh) as (Hret & Hstate & _).
  - reflexivity.
  - split; [exact Hret | exact Hstate].
Defined.

Lemma header_payload_contiguous_witness :
  area_ptr (Samples.payload Samples.at_ethernet)
  = area_ptr (Samples.header Samples.at_ethernet)
    + area_len (Samples.header Samples.at_ethernet).
Proof.
  apply (header_payload_contiguous (Layer.of_spec Samples.Ethernet)
    (Layer.of_spec Samples.Vlan) (Layer.of_spec Samples.IPv4)
    (Layer.of_spec Samples.Gre) (Layer.of_spec Samples.Udp)
    (Layer.of_spec Samples.Sctp) Samples.at_ethernet).
  reflexivity.
Defined.

Lemma views_at_END_witness :
  Samples.header Samples.fresh = mkMCArea nullptr 0 /\
  Samples.payload Samples.fresh = mkMCArea nullptr 0 /\
  packet Samples.fresh = Reader.available_area (base Samples.fresh) /\
  packet Samples.fresh = mkMCArea 4096 60.
Proof.
  apply (views_at_END (Layer.of_spec Samples.Ethernet)
    (Layer.of_spec Samples.Vlan) (Layer.of_spec Samples.IPv4)
    (Layer.of_spec Samples.Gre) (Layer.of_spec Samples.Udp)
    (Layer.of_spec Samples.Sctp) Samples.fresh).
  reflexivity.
Defined.

(** A run over a whole frame: Ethernet, IPv4, UDP, then [END]. *)
Example sample_traversal :
  let s1 := snd (Samples.next Samples.at_ethernet) in
  let s2 := snd (Samples.next s1) in
  let s3 := snd (Samples.next s2) in
  (proto Samples.at_ethernet, proto s1, proto s2, proto s3)
  = (L2_ETHERNET, L3_IPv4, L4_UDP, END) /\
  (position (base s1), position (base s2)) = (14, 34).
Proof. vm_compute. split; reflexivity. Qed.

End StackParserFacts.

(** ** The cursor under the parser, with protocol modules that follow
    their capability set *)

Module CursorFacts.

Import stack_ip StackParser.

Section Frame.

Variables Ethernet Vlan IPv4 Gre Udp Sctp : Layer.Spec.

Abbreviation validate_packet :=
  (StackParser.validate_packet (Layer.of_spec Ethernet) (Layer.of_spec Vlan)
     (Layer.of_spec IPv4) (Layer.of_spec Gre) (Layer.of_spec Udp)
     (Layer.of_spec Sctp)).
Abbreviation parse :=
  (StackParser.parse (Layer.of_spec Ethernet) (Layer.of_spec Vlan)
     (Layer.of_spec IPv4) (Layer.of_spec Gre) (Layer.of_spec Udp)
     (Layer.of_spec Sctp)).
Abbreviation next :=
  (StackParser.next (Layer.of_spec Ethernet) (Layer.of_spec Vlan)
     (Layer.of_spec IPv4) (Layer.of_spec Gre) (Layer.of_spec Udp)
     (Layer.of_spec Sctp)).
Abbreviation header :=
  (StackParser.header (Layer.of_spec Ethernet) (Layer.of_spec Vlan)
     (Layer.of_spec IPv4) (Layer.of_spec Gre) (Layer.of_spec Udp)
     (Layer.of_spec Sctp)).
Abbreviation call :=
  (StackParser.call (Layer.of_spec Ethernet) (Layer.of_spec Vlan)
     (Layer.of_spec IPv4) (Layer.of_spec Gre) (Layer.of_spec Udp)
     (Layer.of_spec Sctp)).

Lemma spec_next_run (m : Layer.Spec) (c : Cursor) :
  Layer.spec_next m c
  = (Layer.next_protocol m c,
     snd (Reader.advance (to_unsigned (Layer.header_length m c)) c)).
Proof.
  unfold Layer.spec_next.
  destruct (Reader.advance (to_unsigned (Layer.header_length m c)) c).
  reflexivity.
Qed.

(** C6: [protocol()] and the other accessors, the validation of a
    candidate protocol, and the identification of the next protocol
    leave the reader where it is; [parse()] does not move it either;
    [next()] moves it by the advance over the current header and by
    nothing else, and not at all at [END]. *)
Theorem cursor_moves_only_in_next (s : t) :
  (forall a, snd (call a s) = s) /\
  (forall p, snd (validate_packet p s) = s) /\
  (forall p, base (snd (parse p s)) = base s) /\
  (forall offset length c, Reader.step (Reader.OpPeek offset length) c = c) /\
  (forall m c,
     Layer.spec_next m c
     = (Layer.next_protocol m c,
        snd (Reader.advance (to_unsigned (Layer.header_length m c)) c))) /\
  base (snd (next s))
  = (if supported (proto s)
     then snd (Reader.advance (area_len (header s)) (base s))
     else base s).
Proof.
  split; [intros a; destruct a; reflexivity|].
  split; [intros p; rewrite StackParserFacts.validate_packet_run; reflexivity|].
  split; [intros p; rewrite StackParserFacts.parse_run; reflexivity|].
  split; [reflexivity|].
  split; [apply spec_next_run|].
  rewrite StackParserFacts.next_run. simpl.
  destruct s as [c p].
  unfold StackParser.next_candidate, bind, gets, with_reader.
  destruct p; simpl; try reflexivity; rewrite spec_next_run; reflexivity.
Qed.

End Frame.

End CursorFacts.

(** ** The intrusive map *)

Module IntrusiveMapFacts.

Import IntrusiveMap.

Lemma key_in_chain_nil mem key : ~ key_in_chain mem key [].
Proof.
  intros (a & h & Hin & _). inversion Hin.
Qed.

Lemma key_in_chain_cons mem key a h l :
  mem !! a = Some h ->
  key_in_chain mem key (a :: l)
  <-> Hook.im_key h = key \/ key_in_chain mem key l.
Proof.
  intros Ha. unfold key_in_chain. split.
  - intros (b & hb & Hin & Hb & Hk).
    apply elem_of_cons in Hin as [-> | Hin].
    + left. congruence.
    + right. eauto.
  - intros [Hk | (b & hb & Hin & Hb & Hk)].
    + exists a, h. split; [left | auto].
    + exists b, hb. split; [right; exact Hin | auto].
Qed.

(** On a chain that ends within [fuel] links the search returns, and it
    returns a node exactly when the chain carries the key. *)
Lemma find_bucket_chain key mem :
  forall fuel cur l,
    chain fuel mem cur = Some l ->
    exists found,
      find_bucket fuel mem cur key = Some found /\
      (is_Some found <-> key_in_chain mem key l).
Proof.
  induction fuel as [|fuel IH]; intros [a|] l Hchain; simpl in *;
    try discriminate.
  - injection Hchain as <-. exists None. split; [reflexivity|].
    split; [intros [x Hx]; discriminate | intros H; destruct (key_in_chain_nil _ _ H)].
  - destruct (mem !! a) as [h|] eqn:Ha; simpl in *; [|discriminate].
    destruct (chain fuel mem (Hook.im_next h)) as [l'|] eqn:Hl; simpl in *;
      [|discriminate].
    injection Hchain as <-.
    destruct (bool_decide (Hook.im_key h = key)) eqn:Hk.
    + apply bool_decide_eq_true in Hk. exists (Some a). split; [reflexivity|].
      split; [intros _ | intros _; eauto].
      apply (key_in_chain_cons mem key a h l' Ha). left. exact Hk.
    + apply bool_decide_eq_false in Hk.
      destruct (IH (Hook.im_next h) l' Hl) as (found & Hfind & Hiff).
      exists found. split; [exact Hfind|].
      rewrite (key_in_chain_cons mem key a h l' Ha). tauto.
  - injection Hchain as <-. exists None. split; [reflexivity|].
    split; [intros [x Hx]; discriminate | intros H; destruct (key_in_chain_nil _ _ H)].
Qed.

(** C10: on a map with at least one bucket, for a node [value] in
    memory and a bucket chain that ends, [put(key, value)] returns; it
    returns [false], with the map as it was, exactly when the node's
    [im_linked] is set or a node of the key's bucket carries an equal
    key; otherwise it returns [true] with the node at the front of
    that bucket, the old front behind it, [im_linked] set and [im_key]
    the key, and the bucket's size and the element count one higher. *)
Theorem put_spec (fuel : nat) (key value : Z) (m : t)
    (v : Hook.t) (bucket : Bucket.t) (l : list Z) :
  bucket_list_size m <> 0 ->
  nodes m !! value = Some v ->
  bucket_list m !! bucket_index key m = Some bucket ->
  chain fuel (nodes m) (Bucket.list bucket) = Some l ->
  0 <= Bucket.size bucket < SIZE_MAX ->
  0 <= elements m < SIZE_MAX ->
  exists r m',
    put fuel key value m = Some (r, m') /\
    ((r = false /\ m' = m)
     <-> (Hook.im_linked v = true \/ key_in_chain (nodes m) key l)) /\
    (~ (Hook.im_linked v = true \/ key_in_chain (nodes m) key l) ->
     r = true /\
     m' = {| bucket_list_size := bucket_list_size m;
             bucket_list :=
               <[bucket_index key m :=
                   {| Bucket.list := Some value;
                      Bucket.size := Bucket.size bucket + 1 |}]> (bucket_list m);
             elements := elements m + 1;
             nodes :=
               <[value := {| Hook.im_next := Bucket.list bucket;
                             Hook.im_key := key;
                             Hook.im_linked := true |}]> (nodes m) |}).
Proof.
  intros Hsize Hv Hb Hchain Hbs Hel.
  destruct (find_bucket_chain key (nodes m) fuel _ l Hchain)
    as (found & Hfind & Hiff).
  unfold put. rewrite Hv. simpl. unfold sanity_check.
  destruct (Hook.im_linked v) eqn:Hlinked; simpl.
  - exists false, m. split; [reflexivity|]. split; tauto.
  - rewrite bool_decide_eq_false_2 by exact Hsize.
    rewrite Hb. simpl. rewrite Hfind. simpl.
    destruct found as [a|].
    + assert (Hin : key_in_chain (nodes m) key l) by (apply Hiff; eauto).
      exists false, m. split; [reflexivity|]. split; tauto.
    + assert (Hout : ~ key_in_chain (nodes m) key l).
      { intros Hin. apply Hiff in Hin. destruct Hin; discriminate. }
      unfold link_front. rewrite Hv, Hb. simpl.
      eexists true, _. split; [reflexivity|]. split.
      * split; [intros [? _]; discriminate|].
        intros [? | Hin]; [discriminate | contradiction].
      * intros _. split; [reflexivity|].
        unfold to_size_t, SIZE_MAX in *.
        rewrite !Z.mod_small by lia. reflexivity.
Qed.

Lemma put_spec_witness :
  exists r m',
    put 2 5 100 sample = Some (r, m') /\
    ((r = false /\ m' = sample)
     <-> (false = true \/ key_in_chain (nodes sample) 5 [200])) /\
    (~ (false = true \/ key_in_chain (nodes sample) 5 [200]) ->
     r = true /\
     m' = {| bucket_list_size := 2;
             bucket_list :=
               <[bucket_index 5 sample :=
                   {| Bucket.list := Some 100; Bucket.size := 1 + 1 |}]>
                 (bucket_list sample);
             elements := 1 + 1;
             nodes :=
               <[100 := {| Hook.im_next := Some 200;
                           Hook.im_key := 5;
                           Hook.im_linked := true |}]> (nodes sample) |}).
Proof.
  apply (put_spec 2 5 100 sample (Hook.mk None 0 false)
           (Bucket.mk (Some 200) 1) [200]).
  - simpl. lia.
  - reflexivity.
  - reflexivity.
  - reflexivity.
  - unfold SIZE_MAX. simpl. lia.
  - unfold SIZE_MAX. simpl. lia.
Defined.

(** The sample map refuses a key its bucket already carries, and a node
    that is already linked. *)
Example put_sample_runs :
  put 2 3 100 sample = Some (false, sample) /\
  put 2 5 200 sample = Some (false, sample) /\
  fst <$> put 2 5 100 sample = Some true.
Proof. vm_compute. repeat split. Qed.

End IntrusiveMapFacts.

(** ** Chains of the intrusive map *)

Module IntrusiveMapChains.

Import IntrusiveMap.

Lemma chain_is_chain mem :
  forall fuel cur l, chain fuel mem cur = Some l -> is_chain mem cur l.
Proof.
  induction fuel as [|fuel IH]; intros [a|] l Hc; simpl in Hc;
    try discriminate; try (injection Hc as <-; constructor).
  destruct (mem !! a) as [h|] eqn:Ha; simpl in Hc; [|discriminate].
  destruct (chain fuel mem (Hook.im_next h)) as [l'|] eqn:Hl; simpl in Hc;
    [|discriminate].
  injection Hc as <-. econstructor; eauto.
Qed.

Lemma is_chain_chain mem cur l :
  is_chain mem cur l ->
  forall fuel, (length l <= fuel)%nat -> chain fuel mem cur = Some l.
Proof.
  induction 1 as [|a h l Ha Hl IH]; intros fuel Hfuel.
  - destruct fuel; reflexivity.
  - destruct fuel as [|fuel]; simpl in Hfuel; [lia|].
    simpl. rewrite Ha. simpl. rewrite IH by lia. reflexivity.
Qed.

Lemma is_chain_inj mem cur l1 :
  is_chain mem cur l1 -> forall l2, is_chain mem cur l2 -> l1 = l2.
Proof.
  induction 1 as [|a h l Ha Hl IH]; intros l2 H2; inversion H2; subst.
  - reflexivity.
  - f_equal. apply IH. congruence.
Qed.

Lemma is_chain_suffix mem cur l a :
  is_chain mem cur l -> a ∈ l ->
  exists l1 l2, l = l1 ++ a :: l2 /\ is_chain mem (Some a) (a :: l2).
Proof.
  induction 1 as [|b h l Hb Hl IH]; intros Hin.
  - inversion Hin.
  - destruct (decide (a = b)) as [->|Hne].
    + exists [], l. split; [reflexivity|]. econstructor; eauto.
    + apply elem_of_cons in Hin as [?|Hin]; [contradiction|].
      destruct (IH Hin) as (l1 & l2 & -> & Hc).
      exists (b :: l1), l2. split; [reflexivity | exact Hc].
Qed.

(** A chain that ends visits no node twice. *)
Lemma is_chain_NoDup mem cur l : is_chain mem cur l -> NoDup l.
Proof.
  induction 1 as [|a h l Ha Hl IH]; constructor; [|exact IH].
  intros Hin.
  destruct (is_chain_suffix _ _ _ _ Hl Hin) as (l1 & l2 & Heq & Hc).
  assert (Hfull : is_chain mem (Some a) (a :: l)) by (econstructor; eauto).
  pose proof (is_chain_inj _ _ _ Hc _ Hfull) as Hsame.
  apply (f_equal length) in Heq, Hsame.
  rewrite length_app in Heq. simpl in Heq, Hsame. lia.
Qed.

Lemma is_chain_frame mem cur l a h :
  is_chain mem cur l -> a ∉ l -> is_chain (<[a := h]> mem) cur l.
Proof.
  induction 1 as [|b hb l Hb Hl IH]; intros Hnin; [constructor|].
  apply not_elem_of_cons in Hnin as [Hne Hnin].
  econstructor; [rewrite lookup_insert_ne by congruence; exact Hb | auto].
Qed.

Lemma is_chain_head mem cur l :
  is_chain mem cur l -> cur = head l.
Proof. destruct 1; reflexivity. Qed.

(** The chain without the node [a] that follows [p], once [p] points
    past [a] and [a] is rewritten. *)
Lemma is_chain_unlink mem p a hp ha ha' l2 :
  mem !! p = Some hp -> mem !! a = Some ha ->
  forall l1 cur,
    is_chain mem cur (l1 ++ p :: a :: l2) ->
    is_chain
      (<[a := ha']>
         (<[p := {| Hook.im_next := Hook.im_next ha;
                    Hook.im_key := Hook.im_key hp;
                    Hook.im_linked := Hook.im_linked hp |}]> mem))
      cur (l1 ++ p :: l2).
Proof.
  intros Hp Ha l1 cur Hc.
  pose proof (is_chain_NoDup _ _ _ Hc) as Hnd.
  revert cur Hc Hnd. induction l1 as [|x l1 IH]; simpl; intros cur Hc Hnd.
  - inversion Hc as [|? hp0 ? Hp0 Hrest]; subst.
    inversion Hrest as [|? ha0 ? Ha0 Htail]; subst.
    assert (hp0 = hp) by congruence. assert (ha0 = ha) by congruence. subst.
    apply NoDup_cons in Hnd as [Hp_notin Hnd].
    apply NoDup_cons in Hnd as [Ha_notin _].
    apply not_elem_of_cons in Hp_notin as [Hpa Hp_notin].
    econstructor.
    + rewrite lookup_insert_ne by congruence. apply lookup_insert_eq.
    + simpl. apply is_chain_frame; [|exact Ha_notin].
      apply is_chain_frame; [exact Htail | exact Hp_notin].
  - inversion Hc as [|? hx ? Hx Hrest]; subst.
    apply NoDup_cons in Hnd as [Hx_notin Hnd].
    econstructor.
    + rewrite !lookup_insert_ne; [exact Hx | |].
      * intros ->. apply Hx_notin. apply elem_of_app. right. left.
      * intros ->. apply Hx_notin. apply elem_of_app. right. right. left.
    + apply IH; assumption.
Qed.

End IntrusiveMapChains.

(** ** Well-formed intrusive maps *)

Module IntrusiveMapInvariant.

Import IntrusiveMap IntrusiveMapChains.

Lemma buckets_check_sound m :
  forall bs ls i,
    buckets_check m i bs ls = true ->
    length ls = length bs /\
    forall j b l, bs !! j = Some b -> ls !! j = Some l ->
      bucket_check m (i + j) b l = true.
Proof.
  induction bs as [|b bs IH]; intros [|l ls] i Hc; simpl in Hc;
    try discriminate.
  - split; [reflexivity|]. intros j ? ? Hj. inversion Hj.
  - apply andb_true_iff in Hc as [Hb Hrest].
    destruct (IH ls (S i) Hrest) as [Hlen Hall].
    split; [simpl; congruence|].
    intros [|j] b0 l0 Hb0 Hl0; simpl in Hb0, Hl0.
    + injection Hb0 as <-. injection Hl0 as <-.
      rewrite Nat.add_0_r. exact Hb.
    + rewrite Nat.add_succ_r. apply (Hall j b0 l0 Hb0 Hl0).
Qed.

Lemma wf_check_sound m ls : wf_check m ls = true -> wf m ls.
Proof.
  unfold wf_check. rewrite !andb_true_iff.
  intros ((((Hsize & Hbuckets) & Hbs) & Hel) & Hbound).
  apply bool_decide_eq_true in Hsize, Hbuckets, Hel, Hbound.
  destruct (buckets_check_sound m _ _ _ Hbs) as [Hlen Hall].
  assert (Hbucket : forall i b l,
    bucket_list m !! i = Some b -> ls !! i = Some l ->
    bucket_check m i b l = true) by (intros i b l Hb Hl; apply (Hall i b l Hb Hl)).
  split; try assumption.
  - intros i b l Hb Hl. specialize (Hbucket i b l Hb Hl).
    unfold bucket_check in Hbucket. rewrite !andb_true_iff in Hbucket.
    destruct Hbucket as (((Hchain & Hsz) & _) & _).
    apply bool_decide_eq_true in Hchain, Hsz.
    split; [eapply chain_is_chain; exact Hchain | exact Hsz].
  - intros i l a Hl Hin.
    destruct (lookup_lt_is_Some_2 (bucket_list m) i) as [b Hb].
    { rewrite <- Hlen. eapply lookup_lt_Some; exact Hl. }
    specialize (Hbucket i b l Hb Hl).
    unfold bucket_check in Hbucket. rewrite !andb_true_iff in Hbucket.
    destruct Hbucket as (((_ & _) & Hnodes) & _).
    rewrite forallb_forall in Hnodes.
    specialize (Hnodes a (proj1 (list_elem_of_In _ _) Hin)).
    unfold node_check in Hnodes.
    destruct (nodes m !! a) as [h|]; [|discriminate].
    apply andb_true_iff in Hnodes as [Hlinked Hidx].
    apply bool_decide_eq_true in Hidx. eauto.
  - intros i l Hl.
    destruct (lookup_lt_is_Some_2 (bucket_list m) i) as [b Hb].
    { rewrite <- Hlen. eapply lookup_lt_Some; exact Hl. }
    specialize (Hbucket i b l Hb Hl).
    unfold bucket_check in Hbucket. rewrite !andb_true_iff in Hbucket.
    destruct Hbucket as (_ & Hkeys).
    apply bool_decide_eq_true in Hkeys. exact Hkeys.
Qed.

Lemma bucket_index_lt key m :
  0 < bucket_list_size m ->
  (bucket_index key m < Z.to_nat (bucket_list_size m))%nat.
Proof.
  intros Hpos. unfold bucket_index.
  pose proof (Z.mod_pos_bound (to_size_t key) (bucket_list_size m) Hpos).
  lia.
Qed.

Lemma wf_lookup_bucket m ls i l :
  wf m ls -> ls !! i = Some l -> exists b, bucket_list m !! i = Some b.
Proof.
  intros Hwf Hl. apply lookup_lt_is_Some_2.
  rewrite <- (wf_length _ _ Hwf). eapply lookup_lt_Some; exact Hl.
Qed.

Lemma wf_lookup_key m ls key :
  wf m ls -> exists l, ls !! bucket_index key m = Some l.
Proof.
  intros Hwf. apply lookup_lt_is_Some_2.
  rewrite (wf_length _ _ Hwf), (wf_buckets _ _ Hwf).
  apply bucket_index_lt, (wf_size _ _ Hwf).
Qed.

Lemma length_concat_insert {A} (l' : list A) :
  forall (ls : list (list A)) i l,
    ls !! i = Some l ->
    (length (concat (<[i := l']> ls)) + length l
     = length (concat ls) + length l')%nat.
Proof.
  induction ls as [|l0 ls IH]; intros [|i] l Hl; simpl in *; try discriminate.
  - injection Hl as ->. rewrite !length_app. lia.
  - rewrite !length_app. specialize (IH i l Hl). lia.
Qed.

Lemma length_concat_lookup_le {A} :
  forall (ls : list (list A)) i l,
    ls !! i = Some l -> (length l <= length (concat ls))%nat.
Proof.
  induction ls as [|l0 ls IH]; intros [|i] l Hl; simpl in *; try discriminate.
  - injection Hl as ->. rewrite length_app. lia.
  - rewrite length_app. specialize (IH i l Hl). lia.
Qed.

Lemma is_chain_ext mem mem' cur l :
  is_chain mem cur l ->
  (forall x, x ∈ l -> mem' !! x = mem !! x) ->
  is_chain mem' cur l.
Proof.
  induction 1 as [|a h l Ha Hl IH]; intros Hsame; [constructor|].
  econstructor.
  - rewrite Hsame by left. exact Ha.
  - apply IH. intros x Hx. apply Hsame. right. exact Hx.
Qed.

(** A node in two chains of a well-formed map is in one bucket. *)
Lemma wf_disjoint m ls i j l l' a :
  wf m ls -> ls !! i = Some l -> ls !! j = Some l' ->
  a ∈ l -> a ∈ l' -> i = j.
Proof.
  intros Hwf Hl Hl' Ha Ha'.
  destruct (wf_nodes _ _ Hwf i l a Hl Ha) as (h & Hh & _ & Hi).
  destruct (wf_nodes _ _ Hwf j l' a Hl' Ha') as (h' & Hh' & _ & Hj).
  congruence.
Qed.

Lemma key_in_chain_key_at mem key l :
  key_in_chain mem key l <-> Some key ∈ key_at mem <$> l.
Proof.
  unfold key_in_chain, key_at. rewrite list_elem_of_fmap. split.
  - intros (a & h & Hin & Ha & Hk). exists a. rewrite Ha. simpl.
    split; [congruence | exact Hin].
  - intros (a & Hk & Hin). destruct (mem !! a) as [h|] eqn:Ha; [|discriminate].
    simpl in Hk. exists a, h. split; [exact Hin|]. split; congruence.
Qed.

Lemma wf_unlinked_free m ls value v :
  wf m ls -> nodes m !! value = Some v -> Hook.im_linked v = false ->
  forall j l, ls !! j = Some l -> value ∉ l.
Proof.
  intros Hwf Hv Hlinked j l Hl Hin.
  destruct (wf_nodes _ _ Hwf j l value Hl Hin) as (h & Hh & Hlk & _).
  congruence.
Qed.

(** Linking an unlinked node under a key its bucket does not carry
    keeps the map well formed. *)
Lemma link_front_wf m ls key value v b l :
  wf m ls ->
  nodes m !! value = Some v ->
  Hook.im_linked v = false ->
  bucket_list m !! bucket_index key m = Some b ->
  ls !! bucket_index key m = Some l ->
  ~ key_in_chain (nodes m) key l ->
  elements m < SIZE_MAX ->
  exists m',
    link_front (bucket_index key m) key value m = Some m' /\
    wf m' (<[bucket_index key m := value :: l]> ls) /\
    nodes m' = <[value := Hook.mk (Bucket.list b) key true]> (nodes m).
Proof.
  intros Hwf Hv Hlinked Hb Hl Hkey Hroom.
  unfold link_front. rewrite Hv, Hb. simpl.
  eexists. split; [reflexivity|]. split; [|reflexivity].
  pose proof (wf_unlinked_free _ _ _ _ Hwf Hv Hlinked) as Hfree.
  set (i := bucket_index key m) in *.
  assert (Hi : (i < length ls)%nat) by (eapply lookup_lt_Some; exact Hl).
  assert (Hib : (i < length (bucket_list m))%nat)
    by (eapply lookup_lt_Some; exact Hb).
  destruct (wf_chain _ _ Hwf i b l Hb Hl) as [Hchain Hsz].
  pose proof (length_concat_lookup_le ls i l Hl) as Hle.
  pose proof (length_concat_insert (value :: l) ls i l Hl) as Hlen.
  pose proof (wf_elements _ _ Hwf) as Hel.
  pose proof (wf_size _ _ Hwf) as Hpos.
  simpl in Hlen.
  split; simpl.
  - exact Hpos.
  - rewrite length_insert. apply (wf_buckets _ _ Hwf).
  - rewrite !length_insert. apply (wf_length _ _ Hwf).
  - intros j b0 l0 Hb0 Hl0. destruct (decide (j = i)) as [->|Hne].
    + rewrite list_lookup_insert_eq in Hb0 by exact Hib.
      rewrite list_lookup_insert_eq in Hl0 by exact Hi.
      injection Hb0 as <-. injection Hl0 as <-. simpl. split.
      * econstructor; [apply lookup_insert_eq|]. simpl.
        apply is_chain_frame; [exact Hchain | apply (Hfree i l Hl)].
      * unfold to_size_t, SIZE_MAX in *. rewrite Z.mod_small by lia. lia.
    + rewrite list_lookup_insert_ne in Hb0 by congruence.
      rewrite list_lookup_insert_ne in Hl0 by congruence.
      destruct (wf_chain _ _ Hwf j b0 l0 Hb0 Hl0) as [Hc0 Hs0].
      split; [|exact Hs0].
      apply is_chain_frame; [exact Hc0 | apply (Hfree j l0 Hl0)].
  - intros j l0 a Hl0 Hin. destruct (decide (j = i)) as [->|Hne].
    + rewrite list_lookup_insert_eq in Hl0 by exact Hi.
      injection Hl0 as <-.
      apply elem_of_cons in Hin as [->|Hin].
      * eexists. split; [apply lookup_insert_eq|]. simpl.
        split; reflexivity.
      * destruct (wf_nodes _ _ Hwf i l a Hl Hin) as (h & Hh & Hlk & Hidx).
        exists h. rewrite lookup_insert_ne; [auto|].
        intros <-. apply (Hfree i l Hl Hin).
    + rewrite list_lookup_insert_ne in Hl0 by congruence.
      destruct (wf_nodes _ _ Hwf j l0 a Hl0 Hin) as (h & Hh & Hlk & Hidx).
      exists h. rewrite lookup_insert_ne; [auto|].
      intros <-. apply (Hfree j l0 Hl0 Hin).
  - intros j l0 Hl0.
    assert (Hsame : forall l1 : list Z, value ∉ l1 ->
      key_at (<[value := Hook.mk (Bucket.list b) key true]> (nodes m)) <$> l1
      = key_at (nodes m) <$> l1).
    { intros l1 Hnin. apply Forall_fmap_ext, Forall_forall.
      intros x Hx. unfold key_at. rewrite lookup_insert_ne; [reflexivity|].
      intros <-. exact (Hnin Hx). }
    destruct (decide (j = i)) as [->|Hne].
    + rewrite list_lookup_insert_eq in Hl0 by exact Hi.
      injection Hl0 as <-. rewrite fmap_cons.
      rewrite (Hsame l (Hfree i l Hl)).
      unfold key_at at 1. rewrite lookup_insert_eq. simpl.
      apply NoDup_cons. split; [|apply (wf_keys _ _ Hwf i l Hl)].
      intros Hin. apply Hkey, key_in_chain_key_at, Hin.
    + rewrite list_lookup_insert_ne in Hl0 by congruence.
      rewrite (Hsame l0 (Hfree j l0 Hl0)). apply (wf_keys _ _ Hwf j l0 Hl0).
  - unfold to_size_t, SIZE_MAX in *. rewrite Z.mod_small by lia. lia.
  - unfold to_size_t, SIZE_MAX. pose proof (Z.mod_pos_bound (elements m + 1) (2 ^ 64)).
    lia.
Qed.

Lemma NoDup_drop_middle {A} (l1 l2 : list A) (a : A) :
  NoDup (l1 ++ a :: l2) -> NoDup (l1 ++ l2).
Proof.
  rewrite !NoDup_app, NoDup_cons. intros (H1 & H2 & _ & H3).
  split; [exact H1|]. split; [|exact H3].
  intros x Hx Hx2. apply (H2 x Hx). right. exact Hx2.
Qed.

Lemma elem_of_drop_middle {A} (l1 l2 : list A) (a x : A) :
  x ∈ l1 ++ l2 -> x ∈ l1 ++ a :: l2.
Proof.
  rewrite !elem_of_app, elem_of_cons. tauto.
Qed.

Lemma is_chain_drop mem :
  forall l1 cur l, is_chain mem cur (l1 ++ l) -> exists mid, is_chain mem mid l.
Proof.
  induction l1 as [|x l1 IH]; simpl; intros cur l Hc; [eauto|].
  inversion Hc; subst. eauto.
Qed.

(** The map after one node left the chain of bucket [i]: what the two
    unlinking functions have in common. *)
Lemma wf_without m m' ls i b cur' l1 a l2 :
  wf m ls ->
  bucket_list m !! i = Some b ->
  ls !! i = Some (l1 ++ a :: l2) ->
  bucket_list_size m' = bucket_list_size m ->
  bucket_list m' =
    <[i := {| Bucket.list := cur';
              Bucket.size := to_size_t (Bucket.size b - 1) |}]> (bucket_list m) ->
  elements m' = to_size_t (elements m - 1) ->
  is_chain (nodes m') cur' (l1 ++ l2) ->
  (forall x, x ∉ l1 ++ a :: l2 -> nodes m' !! x = nodes m !! x) ->
  (forall x h, x ∈ l1 ++ l2 -> nodes m !! x = Some h ->
     exists h', nodes m' !! x = Some h' /\
       Hook.im_key h' = Hook.im_key h /\
       Hook.im_linked h' = Hook.im_linked h) ->
  wf m' (<[i := l1 ++ l2]> ls).
Proof.
  intros Hwf Hb Hl Hbls Hbl Hels Hchain' Hframe Hkept.
  assert (Hi : (i < length ls)%nat) by (eapply lookup_lt_Some; exact Hl).
  assert (Hib : (i < length (bucket_list m))%nat)
    by (eapply lookup_lt_Some; exact Hb).
  destruct (wf_chain _ _ Hwf i b _ Hb Hl) as [Hchain Hsz].
  pose proof (length_concat_lookup_le ls i _ Hl) as Hle.
  pose proof (length_concat_insert (l1 ++ l2) ls i _ Hl) as Hlen.
  pose proof (wf_elements _ _ Hwf) as Hel.
  pose proof (wf_bound _ _ Hwf) as Hbound.
  rewrite !length_app in Hle, Hlen, Hsz. simpl in Hle, Hlen, Hsz.
  assert (Hother : forall j l0 x, j <> i -> ls !! j = Some l0 -> x ∈ l0 ->
    nodes m' !! x = nodes m !! x).
  { intros j l0 x Hne Hl0 Hx. apply Hframe. intros Hx'.
    apply Hne. exact (wf_disjoint _ _ _ _ _ _ _ Hwf Hl0 Hl Hx Hx'). }
  assert (Hkeys : forall l0 : list Z,
    (forall x, x ∈ l0 -> key_at (nodes m') x = key_at (nodes m) x) ->
    key_at (nodes m') <$> l0 = key_at (nodes m) <$> l0).
  { intros l0 Hsame. apply Forall_fmap_ext, Forall_forall. exact Hsame. }
  split.
  - rewrite Hbls. apply (wf_size _ _ Hwf).
  - rewrite Hbl, Hbls, length_insert. apply (wf_buckets _ _ Hwf).
  - rewrite Hbl, !length_insert. apply (wf_length _ _ Hwf).
  - rewrite Hbl. intros j b0 l0 Hb0 Hl0. destruct (decide (j = i)) as [->|Hne].
    + rewrite list_lookup_insert_eq in Hb0 by exact Hib.
      rewrite list_lookup_insert_eq in Hl0 by exact Hi.
      injection Hb0 as <-. injection Hl0 as <-. simpl.
      split; [exact Hchain'|].
      unfold to_size_t, SIZE_MAX in *. rewrite length_app.
      rewrite Z.mod_small by lia. lia.
    + rewrite list_lookup_insert_ne in Hb0 by congruence.
      rewrite list_lookup_insert_ne in Hl0 by congruence.
      destruct (wf_chain _ _ Hwf j b0 l0 Hb0 Hl0) as [Hc0 Hs0].
      split; [|exact Hs0].
      eapply is_chain_ext; [exact Hc0|]. intros x Hx. eapply Hother; eauto.
  - intros j l0 x Hl0 Hx. unfold bucket_index. rewrite Hbls.
    destruct (decide (j = i)) as [->|Hne].
    + rewrite list_lookup_insert_eq in Hl0 by exact Hi.
      injection Hl0 as <-.
      destruct (wf_nodes _ _ Hwf i _ x Hl (elem_of_drop_middle _ _ a _ Hx))
        as (h & Hh & Hlk & Hidx).
      destruct (Hkept x h Hx Hh) as (h' & Hh' & Hk' & Hlk').
      exists h'. rewrite Hk', Hlk'. auto.
    + rewrite list_lookup_insert_ne in Hl0 by congruence.
      destruct (wf_nodes _ _ Hwf j l0 x Hl0 Hx) as (h & Hh & Hlk & Hidx).
      exists h. rewrite (Hother j l0 x Hne Hl0 Hx). auto.
  - intros j l0 Hl0. destruct (decide (j = i)) as [->|Hne].
    + rewrite list_lookup_insert_eq in Hl0 by exact Hi.
      injection Hl0 as <-.
      rewrite Hkeys.
      * pose proof (wf_keys _ _ Hwf i _ Hl) as Hnd.
        rewrite fmap_app, fmap_cons in Hnd. rewrite fmap_app.
        eapply NoDup_drop_middle; exact Hnd.
      * intros x Hx.
        destruct (wf_nodes _ _ Hwf i _ x Hl (elem_of_drop_middle _ _ a _ Hx))
          as (h & Hh & _).
        destruct (Hkept x h Hx Hh) as (h' & Hh' & Hk' & _).
        unfold key_at. rewrite Hh, Hh'. simpl. congruence.
    + rewrite list_lookup_insert_ne in Hl0 by congruence.
      rewrite Hkeys; [apply (wf_keys _ _ Hwf j l0 Hl0)|].
      intros x Hx. unfold key_at. rewrite (Hother j l0 x Hne Hl0 Hx).
      reflexivity.
  - rewrite Hels. unfold to_size_t, SIZE_MAX in *.
    rewrite length_app in Hlen. rewrite Z.mod_small by lia. lia.
  - rewrite Hels. unfold to_size_t, SIZE_MAX.
    pose proof (Z.mod_pos_bound (elements m - 1) (2 ^ 64)). lia.
Qed.

Lemma unlink_front_wf m ls i a l2 :
  wf m ls ->
  ls !! i = Some (a :: l2) ->
  exists m' ha,
    unlink_front i m = Some m' /\
    wf m' (<[i := l2]> ls) /\
    nodes m !! a = Some ha /\
    nodes m' = <[a := Hook.mk None (Hook.im_key ha) false]> (nodes m) /\
    bucket_list_size m' = bucket_list_size m.
Proof.
  intros Hwf Hl.
  destruct (wf_lookup_bucket _ _ _ _ Hwf Hl) as [b Hb].
  destruct (wf_chain _ _ Hwf i b _ Hb Hl) as [Hchain _].
  pose proof (is_chain_NoDup _ _ _ Hchain) as Hnd.
  apply NoDup_cons in Hnd as [Ha_notin _].
  inversion Hchain as [|? ha ? Ha Htail Hcur]; subst.
  unfold unlink_front, set_im_next, set_im_linked.
  rewrite Hb. simpl. rewrite <- Hcur. simpl. rewrite Ha. simpl.
  rewrite lookup_insert_eq. simpl. rewrite insert_insert_eq.
  eexists _, ha. split; [reflexivity|].
  split; [|split; [reflexivity | split; reflexivity]].
  eapply (wf_without m _ ls i b _ [] a l2 Hwf Hb Hl); simpl;
    try reflexivity.
  - apply is_chain_frame; assumption.
  - intros x Hx. apply not_elem_of_cons in Hx as [Hne _].
    apply lookup_insert_ne. congruence.
  - intros x h Hx Hh. exists h. rewrite lookup_insert_ne; [auto|].
    intros <-. exact (Ha_notin Hx).
Qed.

Lemma unlink_next_wf m ls i l1 p a l2 :
  wf m ls ->
  ls !! i = Some (l1 ++ p :: a :: l2) ->
  exists m' hp ha,
    unlink_next i p m = Some m' /\
    wf m' (<[i := l1 ++ p :: l2]> ls) /\
    nodes m !! p = Some hp /\
    nodes m !! a = Some ha /\
    nodes m' =
      <[a := Hook.mk None (Hook.im_key ha) false]>
        (<[p := Hook.mk (Hook.im_next ha) (Hook.im_key hp) (Hook.im_linked hp)]>
           (nodes m)) /\
    bucket_list_size m' = bucket_list_size m.
Proof.
  intros Hwf Hl.
  destruct (wf_lookup_bucket _ _ _ _ Hwf Hl) as [b Hb].
  destruct (wf_chain _ _ Hwf i b _ Hb Hl) as [Hchain _].
  pose proof (is_chain_NoDup _ _ _ Hchain) as Hnd.
  destruct (is_chain_drop _ _ _ _ Hchain) as [mid Hmid].
  inversion Hmid as [|? hp ? Hp Hrest]; subst.
  inversion Hrest as [|? ha ? Ha Htail Hnext]; subst.
  assert (Hpa : p <> a).
  { apply NoDup_app in Hnd as (_ & _ & Hnd).
    apply NoDup_cons in Hnd as [Hnin _]. intros ->. apply Hnin. left. }
  unfold unlink_next, set_im_next, set_im_linked.
  rewrite Hb. simpl. rewrite Hp. simpl. rewrite <- Hnext. simpl.
  rewrite Ha. simpl.
  rewrite (lookup_insert_ne _ p a) by exact Hpa. rewrite Ha. simpl.
  rewrite lookup_insert_eq. simpl. rewrite insert_insert_eq.
  eexists _, hp, ha. split; [reflexivity|].
  split; [|repeat split; reflexivity].
  assert (Hl' : ls !! i = Some ((l1 ++ [p]) ++ a :: l2))
    by (rewrite <- app_assoc; exact Hl).
  replace (l1 ++ p :: l2) with ((l1 ++ [p]) ++ l2)
    by (rewrite <- app_assoc; reflexivity).
  eapply (wf_without m _ ls i b _ (l1 ++ [p]) a l2 Hwf Hb Hl'); simpl;
    try reflexivity.
  - rewrite <- app_assoc. simpl.
    apply (is_chain_unlink _ p a hp ha _ l2 Hp Ha l1 _ Hchain).
  - intros x Hx. rewrite <- app_assoc in Hx. simpl in Hx.
    rewrite !lookup_insert_ne; [reflexivity | |].
    + intros <-. apply Hx. apply elem_of_app. right. left.
    + intros <-. apply Hx. apply elem_of_app. right. right. left.
  - intros x h Hx Hh. rewrite <- app_assoc in Hx. simpl in Hx.
    assert (Hxa : a <> x).
    { intros <-. apply NoDup_app in Hnd as (_ & Hdisj & Hnd).
      apply NoDup_cons in Hnd as [_ Hnd].
      apply NoDup_cons in Hnd as [Hnin _].
      apply elem_of_app in Hx as [Hx|Hx].
      - apply (Hdisj a Hx). right. left.
      - apply elem_of_cons in Hx as [Hx|Hx]; [congruence | exact (Hnin Hx)]. }
    rewrite lookup_insert_ne by exact Hxa.
    destruct (decide (p = x)) as [<-|Hpx].
    + rewrite lookup_insert_eq. eexists. split; [reflexivity|].
      assert (h = hp) by congruence. subst. split; reflexivity.
    + rewrite lookup_insert_ne by exact Hpx. eauto.
Qed.

(** The search that also tracks the predecessor: on a chain that ends
    within the fuel it stops at the first node carrying the key, with
    [prev] the node before it. *)
Lemma find_bucket_prev_chain key mem cur l :
  is_chain mem cur l ->
  forall fuel prev, (length l <= fuel)%nat ->
    (~ key_in_chain mem key l /\
     exists prev', find_bucket_prev fuel mem cur key prev = Some (None, prev'))
    \/
    (exists l1 a l2 h,
       l = l1 ++ a :: l2 /\ mem !! a = Some h /\ Hook.im_key h = key /\
       ~ key_in_chain mem key l1 /\
       find_bucket_prev fuel mem cur key prev
       = Some (Some a, match last l1 with Some q => Some q | None => prev end)).
Proof.
  induction 1 as [|x hx l Hx Hl IH]; intros fuel prev Hfuel.
  - left. split; [apply IntrusiveMapFacts.key_in_chain_nil|].
    exists prev. destruct fuel; reflexivity.
  - destruct fuel as [|fuel]; simpl in Hfuel; [lia|].
    simpl. rewrite Hx. simpl.
    destruct (bool_decide (Hook.im_key hx = key)) eqn:Hk.
    + apply bool_decide_eq_true in Hk. right.
      exists [], x, l, hx. repeat split; try assumption.
      apply IntrusiveMapFacts.key_in_chain_nil.
    + apply bool_decide_eq_false in Hk.
      destruct (IH fuel (Some x) ltac:(lia)) as
        [[Hnot [prev' Hrun]] | (l1 & a & l2 & h & -> & Ha & Hkey & Hnot & Hrun)].
      * left. split; [|eauto].
        rewrite (IntrusiveMapFacts.key_in_chain_cons mem key x hx l Hx). tauto.
      * right. exists (x :: l1), a, l2, h. repeat split; try assumption.
        -- rewrite (IntrusiveMapFacts.key_in_chain_cons mem key x hx l1 Hx).
           tauto.
        -- rewrite Hrun, last_cons. destruct (last l1); reflexivity.
Qed.

(** What a [put] does on a well-formed map. *)
Lemma put_run fuel key value m ls v l :
  wf m ls ->
  nodes m !! value = Some v ->
  ls !! bucket_index key m = Some l ->
  (length l <= fuel)%nat ->
  elements m < SIZE_MAX ->
  ((Hook.im_linked v = true \/ key_in_chain (nodes m) key l) /\
   put fuel key value m = Some (false, m))
  \/
  (Hook.im_linked v = false /\ ~ key_in_chain (nodes m) key l /\
   exists m' b,
     put fuel key value m = Some (true, m') /\
     wf m' (<[bucket_index key m := value :: l]> ls) /\
     bucket_list m !! bucket_index key m = Some b /\
     nodes m' = <[value := Hook.mk (Bucket.list b) key true]> (nodes m) /\
     bucket_list_size m' = bucket_list_size m).
Proof.
  intros Hwf Hv Hl Hfuel Hroom.
  destruct (wf_lookup_bucket _ _ _ _ Hwf Hl) as [b Hb].
  destruct (wf_chain _ _ Hwf _ b l Hb Hl) as [Hchain _].
  pose proof (is_chain_chain _ _ _ Hchain fuel Hfuel) as Hrun.
  destruct (IntrusiveMapFacts.find_bucket_chain key (nodes m) fuel _ l Hrun)
    as (found & Hfind & Hiff).
  pose proof (wf_size _ _ Hwf) as Hpos.
  unfold put. rewrite Hv. simpl. unfold sanity_check.
  destruct (Hook.im_linked v) eqn:Hlinked; simpl; [left; auto|].
  rewrite bool_decide_eq_false_2 by lia.
  rewrite Hb. simpl. rewrite Hfind. simpl.
  destruct found as [a|].
  - left. split; [right; apply Hiff; eauto | reflexivity].
  - assert (Hout : ~ key_in_chain (nodes m) key l).
    { intros Hin. apply Hiff in Hin. destruct Hin; discriminate. }
    right. split; [reflexivity|]. split; [exact Hout|].
    destruct (link_front_wf m ls key value v b l Hwf Hv Hlinked Hb Hl Hout Hroom)
      as (m' & Hlink & Hwf' & Hmem).
    exists m', b. rewrite Hlink. simpl.
    split; [reflexivity|]. split; [exact Hwf'|]. split; [reflexivity|].
    split; [exact Hmem|].
    unfold link_front in Hlink. rewrite Hv, Hb in Hlink. simpl in Hlink.
    injection Hlink as <-. reflexivity.
Qed.

(** What a [remove] does on a well-formed map. *)
Lemma remove_run fuel key m ls l :
  wf m ls ->
  ls !! bucket_index key m = Some l ->
  (length l <= fuel)%nat ->
  (~ key_in_chain (nodes m) key l /\ remove fuel key m = Some (false, m))
  \/
  (exists l1 a l2 ha m',
     l = l1 ++ a :: l2 /\
     nodes m !! a = Some ha /\ Hook.im_key ha = key /\
     ~ key_in_chain (nodes m) key l1 /\
     remove fuel key m = Some (true, m') /\
     wf m' (<[bucket_index key m := l1 ++ l2]> ls) /\
     bucket_list_size m' = bucket_list_size m /\
     nodes m' !! a = Some (Hook.mk None key false) /\
     (forall x, x ∉ l -> nodes m' !! x = nodes m !! x) /\
     (forall x, x <> a -> key_at (nodes m') x = key_at (nodes m) x)).
Proof.
  intros Hwf Hl Hfuel.
  destruct (wf_lookup_bucket _ _ _ _ Hwf Hl) as [b Hb].
  destruct (wf_chain _ _ Hwf _ b l Hb Hl) as [Hchain _].
  pose proof (is_chain_NoDup _ _ _ Hchain) as Hnd.
  pose proof (is_chain_head _ _ _ Hchain) as Hhead.
  pose proof (wf_size _ _ Hwf) as Hpos.
  unfold remove. rewrite bool_decide_eq_false_2 by lia.
  rewrite Hb. simpl.
  destruct (find_bucket_prev_chain key _ _ _ Hchain fuel None Hfuel)
    as [[Hnot [prev' Hrun]] | (l1 & a & l2 & ha & -> & Ha & Hkey & Hnot & Hrun)];
    rewrite Hrun; simpl.
  - left. split; [exact Hnot | reflexivity].
  - right. exists l1, a, l2, ha.
    destruct l1 as [|x l1']; simpl in *.
    + rewrite Hhead. rewrite bool_decide_eq_true_2 by reflexivity.
      destruct (unlink_front_wf m ls _ a l2 Hwf Hl)
        as (m' & ha' & Hun & Hwf' & Ha' & Hmem & Hbls).
      assert (ha' = ha) by congruence. subst ha'.
      exists m'. rewrite Hun. simpl. rewrite Hmem.
      split_and!; try assumption; try reflexivity.
      * rewrite lookup_insert_eq. congruence.
      * intros x Hx. apply not_elem_of_cons in Hx as [Hne _].
        apply lookup_insert_ne. congruence.
      * intros x Hx. unfold key_at. rewrite lookup_insert_ne by congruence.
        reflexivity.
    + assert (Hxa : Some a <> Some x).
      { intros [= ->]. apply NoDup_cons in Hnd as [Hnin _].
        apply Hnin. apply elem_of_app. right. left. }
      rewrite Hhead. rewrite bool_decide_eq_false_2 by exact Hxa.
      destruct (last (x :: l1')) as [p|] eqn:Hlast;
        [|rewrite last_cons in Hlast; destruct (last l1'); discriminate].
      apply last_Some in Hlast as [l1 Hl1].
      simpl.
      assert (Hl' : ls !! bucket_index key m = Some (l1 ++ p :: a :: l2)).
      { rewrite Hl. f_equal. change (x :: l1' ++ a :: l2)
          with ((x :: l1') ++ a :: l2).
        rewrite Hl1, <- app_assoc. reflexivity. }
      destruct (unlink_next_wf m ls _ l1 p a l2 Hwf Hl')
        as (m' & hp & ha' & Hun & Hwf' & Hp' & Ha' & Hmem & Hbls).
      assert (ha' = ha) by congruence. subst ha'.
      assert (Hpa : p <> a).
      { intros ->. change (x :: l1' ++ a :: l2)
          with ((x :: l1') ++ a :: l2) in Hnd.
        rewrite Hl1 in Hnd. apply NoDup_app in Hnd as (_ & Hdisj & _).
        apply (Hdisj a); [apply elem_of_app; right; left | left]. }
      exists m'. rewrite Hun. simpl. rewrite Hmem.
      assert (Heq : x :: l1' ++ l2 = l1 ++ p :: l2).
      { change (x :: l1' ++ l2) with ((x :: l1') ++ l2).
        rewrite Hl1, <- app_assoc. reflexivity. }
      split_and!; try assumption; try reflexivity.
      * rewrite Heq. exact Hwf'.
      * rewrite lookup_insert_eq. congruence.
      * intros y Hy.
        assert (Hy' : y ∉ l1 ++ p :: a :: l2).
        { intros Hin. apply Hy.
          change (x :: l1' ++ a :: l2) with ((x :: l1') ++ a :: l2).
          rewrite Hl1, <- app_assoc. exact Hin. }
        rewrite !lookup_insert_ne; [reflexivity | |].
        -- intros <-. apply Hy'. apply elem_of_app. right. left.
        -- intros <-. apply Hy'. apply elem_of_app. right. right. left.
      * intros y Hy. unfold key_at. rewrite lookup_insert_ne by congruence.
        destruct (decide (p = y)) as [<-|Hne].
        -- rewrite lookup_insert_eq, Hp'. reflexivity.
        -- rewrite lookup_insert_ne by exact Hne. reflexivity.
Qed.

End IntrusiveMapInvariant.

(** ** Laws of the intrusive map *)

Module IntrusiveMapLaws.

Import IntrusiveMap IntrusiveMapChains IntrusiveMapInvariant.

Lemma put_true_inv fuel key value m m' :
  put fuel key value m = Some (true, m') ->
  exists v b,
    nodes m !! value = Some v /\ Hook.im_linked v = false /\
    bucket_list_size m <> 0 /\
    bucket_list m !! bucket_index key m = Some b /\
    m' = {| bucket_list_size := bucket_list_size m;
            bucket_list :=
              <[bucket_index key m :=
                  Bucket.mk (Some value) (to_size_t (Bucket.size b + 1))]>
                (bucket_list m);
            elements := to_size_t (elements m + 1);
            nodes := <[value := Hook.mk (Bucket.list b) key true]> (nodes m) |}.
Proof.
  unfold put. intros Hput.
  destruct (nodes m !! value) as [v|] eqn:Hv; simpl in Hput; [|discriminate].
  unfold sanity_check in Hput.
  destruct (Hook.im_linked v) eqn:Hlinked; simpl in Hput; [discriminate|].
  destruct (bool_decide (bucket_list_size m = 0)) eqn:Hz; [discriminate|].
  apply bool_decide_eq_false in Hz.
  destruct (bucket_list m !! bucket_index key m) as [b|] eqn:Hb;
    simpl in Hput; [|discriminate].
  destruct (find_bucket fuel (nodes m) (Bucket.list b) key) as [[a|]|];
    simpl in Hput; try discriminate.
  unfold link_front in Hput. rewrite Hv, Hb in Hput. simpl in Hput.
  injection Hput as <-. exists v, b. auto.
Qed.

Lemma to_size_t_succ_pred s :
  0 <= s <= SIZE_MAX -> to_size_t (to_size_t (s + 1) - 1) = s.
Proof.
  unfold to_size_t, SIZE_MAX. intros Hs.
  rewrite Zminus_mod_idemp_l. replace (s + 1 - 1) with s by lia.
  apply Z.mod_small. lia.
Qed.

(** After a [put] that returned [true], [find] of the same key returns
    the node just linked. *)
Theorem find_after_put (fuel fuel' : nat) (key value : Z) (m m' : t) :
  put fuel key value m = Some (true, m') ->
  find (S fuel') key m' = Some (Some value).
Proof.
  intros Hput.
  destruct (put_true_inv _ _ _ _ _ Hput) as (v & b & Hv & Hlinked & Hz & Hb & ->).
  unfold find, bucket_index. simpl.
  rewrite bool_decide_eq_false_2 by exact Hz.
  fold (bucket_index key m).
  rewrite list_lookup_insert_eq by (eapply lookup_lt_Some; exact Hb).
  simpl. rewrite lookup_insert_eq. simpl.
  rewrite bool_decide_eq_true_2 by reflexivity. reflexivity.
Qed.

Lemma find_after_put_witness :
  find 1 5 (snd (default (false, sample) (put 2 5 100 sample)))
  = Some (Some 100).
Proof.
  apply (find_after_put 2 0 5 100 sample). reflexivity.
Defined.

(** A key is put once: after a [put] that returned [true], a [put] of
    the same key returns [false] and changes nothing, whichever node it
    is given. *)
Theorem put_same_key_again (fuel fuel' : nat) (key value value' : Z)
    (m m' : t) (v' : Hook.t) :
  put fuel key value m = Some (true, m') ->
  nodes m' !! value' = Some v' ->
  put (S fuel') key value' m' = Some (false, m').
Proof.
  intros Hput Hv'.
  destruct (put_true_inv _ _ _ _ _ Hput) as (v & b & Hv & Hlinked & Hz & Hb & Hm').
  unfold put. rewrite Hv'. simpl. unfold sanity_check.
  destruct (Hook.im_linked v'); simpl; [reflexivity|].
  subst m'. unfold bucket_index. simpl.
  rewrite bool_decide_eq_false_2 by exact Hz.
  fold (bucket_index key m).
  rewrite list_lookup_insert_eq by (eapply lookup_lt_Some; exact Hb).
  simpl. rewrite lookup_insert_eq. simpl.
  rewrite bool_decide_eq_true_2 by reflexivity. reflexivity.
Qed.

Lemma put_same_key_again_witness :
  put 1 5 200 (snd (default (false, sample) (put 2 5 100 sample)))
  = Some (false, snd (default (false, sample) (put 2 5 100 sample))).
Proof.
  apply (put_same_key_again 2 0 5 100 200 sample _
           (Hook.mk None 3 true)); reflexivity.
Defined.

(** [put] then [remove] of the same key gives the map back: the
    buckets and the element count are as before, and of the node only
    [im_key] keeps the key; [im_next] is null and [im_linked] is
    clear. *)
Theorem remove_after_put (fuel fuel' : nat) (key value : Z) (m m' : t) :
  put fuel key value m = Some (true, m') ->
  0 <= elements m <= SIZE_MAX ->
  (forall b, bucket_list m !! bucket_index key m = Some b ->
             0 <= Bucket.size b <= SIZE_MAX) ->
  remove (S fuel') key m'
  = Some (true,
          {| bucket_list_size := bucket_list_size m;
             bucket_list := bucket_list m;
             elements := elements m;
             nodes := <[value := Hook.mk None key false]> (nodes m) |}).
Proof.
  intros Hput Hel Hsz.
  destruct (put_true_inv _ _ _ _ _ Hput) as (v & b & Hv & Hlinked & Hz & Hb & ->).
  specialize (Hsz b Hb).
  assert (Hi : (bucket_index key m < length (bucket_list m))%nat)
    by (eapply lookup_lt_Some; exact Hb).
  unfold remove, bucket_index. simpl.
  rewrite bool_decide_eq_false_2 by exact Hz.
  fold (bucket_index key m).
  rewrite list_lookup_insert_eq by exact Hi.
  simpl. rewrite lookup_insert_eq. simpl.
  rewrite bool_decide_eq_true_2 by reflexivity. simpl.
  rewrite bool_decide_eq_true_2 by reflexivity.
  unfold unlink_front, set_im_next, set_im_linked. simpl.
  rewrite list_lookup_insert_eq by exact Hi.
  simpl. repeat (rewrite lookup_insert_eq; simpl).
  rewrite !insert_insert_eq, list_insert_insert_eq.
  rewrite !to_size_t_succ_pred by assumption.
  rewrite list_insert_id; [reflexivity|].
  rewrite Hb. destruct b; reflexivity.
Qed.

Lemma remove_after_put_witness :
  remove 1 5 (snd (default (false, sample) (put 2 5 100 sample)))
  = Some (true,
          {| bucket_list_size := 2;
             bucket_list := bucket_list sample;
             elements := 1;
             nodes := <[100 := Hook.mk None 5 false]> (nodes sample) |}).
Proof.
  apply (remove_after_put 2 0 5 100 sample); [reflexivity | | ].
  - unfold SIZE_MAX. simpl. lia.
  - intros b Hb. vm_compute in Hb. injection Hb as <-.
    unfold SIZE_MAX. simpl. lia.
Defined.

Lemma find_bucket_found key mem a :
  forall fuel cur l,
    is_chain mem cur l ->
    find_bucket fuel mem cur key = Some (Some a) ->
    a ∈ l /\ exists h, mem !! a = Some h /\ Hook.im_key h = key.
Proof.
  induction fuel as [|fuel IH]; intros cur l Hc Hf;
    destruct Hc as [|x hx l Hx Hl]; simpl in Hf; try discriminate.
  rewrite Hx in Hf. simpl in Hf.
  destruct (bool_decide (Hook.im_key hx = key)) eqn:Hk.
  - apply bool_decide_eq_true in Hk. injection Hf as <-.
    split; [left | eauto].
  - destruct (IH _ _ Hl Hf) as [Hin Hh]. split; [right; exact Hin | exact Hh].
Qed.

Lemma iterate_from_chain mem :
  forall fuel it, iterate_from fuel mem it = chain fuel mem it.
Proof.
  induction fuel as [|fuel IH]; intros [a|]; simpl; try reflexivity.
  unfold iterator_incr. simpl.
  destruct (mem !! a) as [h|]; simpl; [|reflexivity].
  rewrite IH. reflexivity.
Qed.

Lemma wf_size_eq m ls : wf m ls -> size m = Z.of_nat (length (concat ls)).
Proof. intros Hwf. apply (wf_elements _ _ Hwf). Qed.

(** On a well-formed map with room for one more element [put] returns;
    the map it leaves is well formed, with the node at the head of its
    key's chain and [size()] one higher when it returned [true], and
    with the same chains and [size()] when it returned [false]. *)
Theorem put_keeps_wf (fuel : nat) (key value : Z) (m : t)
    (ls : list (list Z)) (v : Hook.t) (l : list Z) :
  wf m ls ->
  nodes m !! value = Some v ->
  ls !! bucket_index key m = Some l ->
  (length l <= fuel)%nat ->
  elements m < SIZE_MAX ->
  exists r m',
    put fuel key value m = Some (r, m') /\
    wf m' (if r then <[bucket_index key m := value :: l]> ls else ls) /\
    size m' = size m + (if r then 1 else 0).
Proof.
  intros Hwf Hv Hl Hfuel Hroom.
  destruct (put_run fuel key value m ls v l Hwf Hv Hl Hfuel Hroom)
    as [[_ Hrun] | (_ & _ & m' & b & Hrun & Hwf' & _)].
  - exists false, m. split; [exact Hrun|]. split; [exact Hwf | lia].
  - exists true, m'. split; [exact Hrun|]. split; [exact Hwf'|].
    rewrite (wf_size_eq _ _ Hwf), (wf_size_eq _ _ Hwf').
    pose proof (length_concat_insert (value :: l) ls _ l Hl) as Hlen.
    simpl in Hlen. lia.
Qed.

Lemma put_keeps_wf_witness :
  exists r m',
    put 3 9 100 sample3 = Some (r, m') /\
    wf m' (if r then <[bucket_index 9 sample3 := 100 :: [400; 300; 200]]>
                       sample3_chains
           else sample3_chains) /\
    size m' = size sample3 + (if r then 1 else 0).
Proof.
  apply (put_keeps_wf 3 9 100 sample3 sample3_chains (Hook.mk None 0 false)).
  - apply wf_check_sound. reflexivity.
  - reflexivity.
  - reflexivity.
  - simpl. lia.
  - unfold SIZE_MAX. simpl. lia.
Defined.

(** On a well-formed map [find(key)] returns; a node it returns is a
    linked node of the key's bucket that carries the key, and it
    returns [nullptr] only when no node of any chain carries the
    key. *)
Theorem find_spec (fuel : nat) (key : Z) (m : t) (ls : list (list Z))
    (l : list Z) :
  wf m ls ->
  ls !! bucket_index key m = Some l ->
  (length l <= fuel)%nat ->
  exists r,
    find fuel key m = Some r /\
    match r with
    | Some a =>
        a ∈ l /\
        exists h, nodes m !! a = Some h /\ Hook.im_key h = key /\
                  Hook.im_linked h = true
    | None =>
        forall i l' a, ls !! i = Some l' -> a ∈ l' ->
                       key_at (nodes m) a <> Some key
    end.
Proof.
  intros Hwf Hl Hfuel.
  destruct (wf_lookup_bucket _ _ _ _ Hwf Hl) as [b Hb].
  destruct (wf_chain _ _ Hwf _ b l Hb Hl) as [Hchain _].
  pose proof (is_chain_chain _ _ _ Hchain fuel Hfuel) as Hrun.
  destruct (IntrusiveMapFacts.find_bucket_chain key (nodes m) fuel _ l Hrun)
    as (found & Hfind & Hiff).
  pose proof (wf_size _ _ Hwf) as Hpos.
  unfold find. rewrite bool_decide_eq_false_2 by lia.
  rewrite Hb. simpl. exists found. split; [exact Hfind|].
  destruct found as [a|].
  - destruct (find_bucket_found key _ a fuel _ l Hchain Hfind)
      as (Hin & h & Hh & Hk).
    split; [exact Hin|]. exists h. split; [exact Hh|]. split; [exact Hk|].
    destruct (wf_nodes _ _ Hwf _ l a Hl Hin) as (h' & Hh' & Hlk & _).
    congruence.
  - intros i l' a Hl' Hin Hkey.
    destruct (wf_nodes _ _ Hwf i l' a Hl' Hin) as (h & Hh & _ & Hidx).
    unfold key_at in Hkey. rewrite Hh in Hkey. simpl in Hkey.
    injection Hkey as Hkey. rewrite Hkey in Hidx. subst i.
    assert (l' = l) by congruence. subst l'.
    assert (Hsome : is_Some (@None Z)) by (apply Hiff; exists a, h; auto).
    destruct Hsome; discriminate.
Qed.

Lemma find_spec_witness :
  exists r,
    find 3 5 sample3 = Some r /\
    match r with
    | Some a =>
        a ∈ [400; 300; 200] /\
        exists h, nodes sample3 !! a = Some h /\ Hook.im_key h = 5 /\
                  Hook.im_linked h = true
    | None =>
        forall i l' a, sample3_chains !! i = Some l' -> a ∈ l' ->
                       key_at (nodes sample3) a <> Some 5
    end.
Proof.
  apply (find_spec 3 5 sample3 sample3_chains [400; 300; 200]).
  - apply wf_check_sound. reflexivity.
  - reflexivity.
  - simpl. lia.
Defined.

(** On a well-formed map [remove(key)] returns.  It returns [false]
    and changes nothing when no node of the key's bucket carries the
    key.  Otherwise it returns [true] after taking the first node that
    carries the key out of the chain: the map stays well formed with
    the rest of the chain in order, the node has [im_next] null and
    [im_linked] clear, [size()] is one lower, and no node outside the
    bucket's chain is written. *)
Theorem remove_spec (fuel : nat) (key : Z) (m : t) (ls : list (list Z))
    (l : list Z) :
  wf m ls ->
  ls !! bucket_index key m = Some l ->
  (length l <= fuel)%nat ->
  exists r m',
    remove fuel key m = Some (r, m') /\
    (r = false -> m' = m /\ ~ key_in_chain (nodes m) key l) /\
    (r = true ->
     exists l1 a l2,
       l = l1 ++ a :: l2 /\
       key_at (nodes m) a = Some key /\
       ~ key_in_chain (nodes m) key l1 /\
       wf m' (<[bucket_index key m := l1 ++ l2]> ls) /\
       nodes m' !! a = Some (Hook.mk None key false) /\
       size m' = size m - 1 /\
       (forall x, x ∉ l -> nodes m' !! x = nodes m !! x)).
Proof.
  intros Hwf Hl Hfuel.
  destruct (remove_run fuel key m ls l Hwf Hl Hfuel)
    as [[Hnot Hrun] |
        (l1 & a & l2 & ha & m' & -> & Ha & Hk & Hnot & Hrun & Hwf' & _ & Ha'
         & Hframe & _)].
  - exists false, m. split; [exact Hrun|]. split; [auto | discriminate].
  - exists true, m'. split; [exact Hrun|]. split; [discriminate|].
    intros _. exists l1, a, l2. split_and!; try assumption; try reflexivity.
    + unfold key_at. rewrite Ha. simpl. congruence.
    + rewrite (wf_size_eq _ _ Hwf), (wf_size_eq _ _ Hwf').
      pose proof (length_concat_insert (l1 ++ l2) ls _ _ Hl) as Hlen.
      rewrite !length_app in Hlen. simpl in Hlen. lia.
Qed.

Lemma remove_spec_witness :
  exists r m',
    remove 3 5 sample3 = Some (r, m') /\
    (r = false -> m' = sample3 /\ ~ key_in_chain (nodes sample3) 5 [400; 300; 200]) /\
    (r = true ->
     exists l1 a l2,
       [400; 300; 200] = l1 ++ a :: l2 /\
       key_at (nodes sample3) a = Some 5 /\
       ~ key_in_chain (nodes sample3) 5 l1 /\
       wf m' (<[bucket_index 5 sample3 := l1 ++ l2]> sample3_chains) /\
       nodes m' !! a = Some (Hook.mk None 5 false) /\
       size m' = size sample3 - 1 /\
       (forall x, x ∉ [400; 300; 200] -> nodes m' !! x = nodes sample3 !! x)).
Proof.
  apply (remove_spec 3 5 sample3 sample3_chains [400; 300; 200]).
  - apply wf_check_sound. reflexivity.
  - reflexivity.
  - simpl. lia.
Defined.

(** After a [remove] that returned [true] on a well-formed map, [find]
    of the same key returns [nullptr]. *)
Theorem find_after_remove (fuel : nat) (key : Z) (m m' : t)
    (ls : list (list Z)) (l : list Z) :
  wf m ls ->
  ls !! bucket_index key m = Some l ->
  (length l <= fuel)%nat ->
  remove fuel key m = Some (true, m') ->
  find fuel key m' = Some None.
Proof.
  intros Hwf Hl Hfuel Hrem.
  destruct (remove_run fuel key m ls l Hwf Hl Hfuel)
    as [[_ Hrun] |
        (l1 & a & l2 & ha & m'' & -> & Ha & Hk & _ & Hrun & Hwf' & Hbls & _
         & _ & Hkeys)]; rewrite Hrun in Hrem; [discriminate|].
  injection Hrem as ->.
  assert (Hidx : bucket_index key m' = bucket_index key m)
    by (unfold bucket_index; rewrite Hbls; reflexivity).
  assert (Hi : (bucket_index key m < length ls)%nat)
    by (eapply lookup_lt_Some; exact Hl).
  assert (Hl' : <[bucket_index key m := l1 ++ l2]> ls !! bucket_index key m'
                = Some (l1 ++ l2))
    by (rewrite Hidx; apply list_lookup_insert_eq; exact Hi).
  destruct (wf_lookup_bucket _ _ _ _ Hwf' Hl') as [b' Hb'].
  destruct (wf_chain _ _ Hwf' _ b' _ Hb' Hl') as [Hchain' _].
  assert (Hfuel' : (length (l1 ++ l2) <= fuel)%nat).
  { rewrite length_app in *. simpl in Hfuel. lia. }
  pose proof (is_chain_chain _ _ _ Hchain' fuel Hfuel') as Hrun'.
  destruct (IntrusiveMapFacts.find_bucket_chain key (nodes m') fuel _ _ Hrun')
    as (found & Hfind & Hiff).
  pose proof (wf_size _ _ Hwf') as Hpos.
  unfold find. rewrite bool_decide_eq_false_2 by lia.
  rewrite Hb'. simpl. rewrite Hfind. f_equal.
  destruct found as [x|]; [|reflexivity]. exfalso.
  assert (Hin : key_in_chain (nodes m') key (l1 ++ l2)) by (apply Hiff; eauto).
  apply key_in_chain_key_at in Hin.
  pose proof (wf_keys _ _ Hwf _ _ Hl) as Hnd.
  destruct (wf_lookup_bucket _ _ _ _ Hwf Hl) as [b Hb].
  destruct (wf_chain _ _ Hwf _ b _ Hb Hl) as [Hchain _].
  pose proof (is_chain_NoDup _ _ _ Hchain) as Hndl.
  assert (Hsame : key_at (nodes m') <$> (l1 ++ l2)
                  = key_at (nodes m) <$> (l1 ++ l2)).
  { apply Forall_fmap_ext, Forall_forall. intros y Hy. apply Hkeys.
    intros ->. apply NoDup_app in Hndl as (_ & Hdisj & Hndl).
    apply NoDup_cons in Hndl as [Hnin _].
    apply elem_of_app in Hy as [Hy|Hy]; [|exact (Hnin Hy)].
    apply (Hdisj a Hy). left. }
  rewrite Hsame in Hin.
  rewrite fmap_app, fmap_cons in Hnd.
  assert (Hka : key_at (nodes m) a = Some key)
    by (unfold key_at; rewrite Ha; simpl; congruence).
  rewrite Hka in Hnd.
  apply NoDup_app in Hnd as (_ & Hdisj & Hnd).
  apply NoDup_cons in Hnd as [Hnin _].
  rewrite fmap_app in Hin. apply elem_of_app in Hin as [Hin|Hin].
  - apply (Hdisj _ Hin). left.
  - exact (Hnin Hin).
Qed.

Lemma find_after_remove_witness :
  find 3 5 (snd (default (false, sample3) (remove 3 5 sample3))) = Some None.
Proof.
  apply (find_after_remove 3 5 sample3 _ sample3_chains [400; 300; 200]).
  - apply wf_check_sound. reflexivity.
  - reflexivity.
  - simpl. lia.
  - reflexivity.
Defined.

(** A loop over a bucket from [begin(bucket)] to [end()] that comes to
    its end has stopped at no node twice. *)
Theorem iterate_NoDup (fuel : nat) (bucket : nat) (m : t) (l : list Z) :
  iterate fuel bucket m = Some l -> NoDup l.
Proof.
  unfold iterate, begin. intros Hit.
  destruct (bucket_list m !! bucket) as [b|]; simpl in Hit; [|discriminate].
  rewrite iterate_from_chain in Hit.
  eapply is_chain_NoDup, chain_is_chain. exact Hit.
Qed.

Lemma iterate_NoDup_witness : NoDup [400; 300; 200].
Proof.
  apply (iterate_NoDup 3 1 sample3). reflexivity.
Defined.

(** On a well-formed map the loop over a bucket stops at the nodes of
    the bucket's chain, in order; after a [put] that returned [true]
    the loop over the key's bucket stops at the new node first and
    then at the nodes it stopped at before. *)
Theorem iterate_after_put (fuel : nat) (key value : Z) (m m' : t)
    (ls : list (list Z)) (v : Hook.t) (l : list Z) :
  wf m ls ->
  nodes m !! value = Some v ->
  ls !! bucket_index key m = Some l ->
  (length l <= fuel)%nat ->
  elements m < SIZE_MAX ->
  put fuel key value m = Some (true, m') ->
  iterate fuel (bucket_index key m) m = Some l /\
  iterate (S fuel) (bucket_index key m) m' = Some (value :: l).
Proof.
  intros Hwf Hv Hl Hfuel Hroom Hput.
  assert (Hiter : forall m0 ls0 i l0 n,
    wf m0 ls0 -> ls0 !! i = Some l0 -> (length l0 <= n)%nat ->
    iterate n i m0 = Some l0).
  { intros m0 ls0 i l0 n Hwf0 Hl0 Hn.
    destruct (wf_lookup_bucket _ _ _ _ Hwf0 Hl0) as [b0 Hb0].
    destruct (wf_chain _ _ Hwf0 _ b0 l0 Hb0 Hl0) as [Hc0 _].
    unfold iterate, begin. rewrite Hb0. simpl.
    rewrite iterate_from_chain. apply is_chain_chain; assumption. }
  split; [eapply Hiter; eauto|].
  destruct (put_run fuel key value m ls v l Hwf Hv Hl Hfuel Hroom)
    as [[_ Hrun] | (_ & _ & m'' & b & Hrun & Hwf' & _)];
    rewrite Hrun in Hput; [discriminate|].
  injection Hput as ->.
  eapply Hiter; [exact Hwf' | | simpl; lia].
  apply list_lookup_insert_eq. eapply lookup_lt_Some; exact Hl.
Qed.

Lemma iterate_after_put_witness :
  iterate 3 (bucket_index 9 sample3) sample3 = Some [400; 300; 200] /\
  iterate 4 (bucket_index 9 sample3)
    (snd (default (false, sample3) (put 3 9 100 sample3)))
  = Some [100; 400; 300; 200].
Proof.
  apply (iterate_after_put 3 9 100 sample3 _ sample3_chains
           (Hook.mk None 0 false) [400; 300; 200]).
  - apply wf_check_sound. reflexivity.
  - reflexivity.
  - reflexivity.
  - simpl. lia.
  - unfold SIZE_MAX. simpl. lia.
  - reflexivity.
Defined.

Lemma concat_replicate_nil {A} n : concat (replicate n (@nil A)) = [].
Proof. induction n as [|n IH]; simpl; [reflexivity | exact IH]. Qed.

Lemma construct_wf n mem :
  0 < n -> wf (construct n mem) (replicate (Z.to_nat n) []).
Proof.
  intros Hn. unfold construct. split; simpl.
  - exact Hn.
  - apply length_replicate.
  - rewrite !length_replicate. reflexivity.
  - intros i b l Hb Hl.
    apply lookup_replicate in Hb as [-> _].
    apply lookup_replicate in Hl as [-> _].
    split; [constructor | reflexivity].
  - intros i l a Hl Hin. apply lookup_replicate in Hl as [-> _].
    inversion Hin.
  - intros i l Hl. apply lookup_replicate in Hl as [-> _]. constructor.
  - rewrite concat_replicate_nil. reflexivity.
  - unfold SIZE_MAX. lia.
Qed.

(** A map constructed over [n > 0] fresh buckets is well formed and
    empty: [size()] is 0, and for every key [find] returns [nullptr]
    and [remove] returns [false] and changes nothing, without a step of
    search. *)
Theorem construct_is_empty (n : Z) (mem : gmap Z Hook.t) (key : Z) (fuel : nat) :
  0 < n ->
  wf (construct n mem) (replicate (Z.to_nat n) []) /\
  size (construct n mem) = 0 /\
  find fuel key (construct n mem) = Some None /\
  remove fuel key (construct n mem) = Some (false, construct n mem).
Proof.
  intros Hn. split; [apply construct_wf, Hn|]. split; [reflexivity|].
  assert (Hb : bucket_list (construct n mem) !! bucket_index key (construct n mem)
               = Some (Bucket.mk None 0)).
  { apply lookup_replicate_2. apply (bucket_index_lt key (construct n mem) Hn). }
  unfold find, remove. rewrite Hb. simpl.
  rewrite bool_decide_eq_false_2 by lia.
  destruct fuel; split; reflexivity.
Qed.

Lemma construct_is_empty_witness :
  wf (construct 2 sample_nodes) (replicate (Z.to_nat 2) []) /\
  size (construct 2 sample_nodes) = 0 /\
  find 0 7 (construct 2 sample_nodes) = Some None /\
  remove 0 7 (construct 2 sample_nodes) = Some (false, construct 2 sample_nodes).
Proof.
  apply (construct_is_empty 2 sample_nodes 7 0). lia.
Defined.

Lemma reset_bucket_run :
  forall l m ls i fuel,
    wf m ls -> ls !! i = Some l -> (length l <= fuel)%nat ->
    exists m',
      reset_bucket fuel i m = Some m' /\
      wf m' (<[i := []]> ls) /\
      bucket_list_size m' = bucket_list_size m /\
      (forall x, x ∈ l -> exists k, nodes m' !! x = Some (Hook.mk None k false)) /\
      (forall x, x ∉ l -> nodes m' !! x = nodes m !! x).
Proof.
  induction l as [|a l2 IH]; intros m ls i fuel Hwf Hl Hfuel.
  - destruct (wf_lookup_bucket _ _ _ _ Hwf Hl) as [b Hb].
    destruct (wf_chain _ _ Hwf _ b _ Hb Hl) as [Hchain _].
    apply is_chain_head in Hchain. simpl in Hchain.
    exists m. rewrite (list_insert_id _ _ _ Hl).
    split; [destruct fuel; simpl; rewrite Hb; simpl; rewrite Hchain; reflexivity|].
    split; [exact Hwf|]. split; [reflexivity|].
    split; [intros x Hx; inversion Hx | reflexivity].
  - destruct fuel as [|fuel]; simpl in Hfuel; [lia|].
    destruct (wf_lookup_bucket _ _ _ _ Hwf Hl) as [b Hb].
    destruct (wf_chain _ _ Hwf _ b _ Hb Hl) as [Hchain _].
    pose proof (is_chain_NoDup _ _ _ Hchain) as Hnd.
    apply NoDup_cons in Hnd as [Ha_notin _].
    apply is_chain_head in Hchain. simpl in Hchain.
    destruct (unlink_front_wf m ls i a l2 Hwf Hl)
      as (m1 & ha & Hun & Hwf1 & Ha & Hmem1 & Hbls1).
    assert (Hl1 : <[i := l2]> ls !! i = Some l2).
    { apply list_lookup_insert_eq. eapply lookup_lt_Some; exact Hl. }
    destruct (IH m1 _ i fuel Hwf1 Hl1 ltac:(lia))
      as (m' & Hrun & Hwf' & Hbls' & Hun' & Hframe').
    rewrite list_insert_insert_eq in Hwf'.
    exists m'. simpl. rewrite Hb. simpl. rewrite Hchain. rewrite Hun. simpl.
    split; [exact Hrun|]. split; [exact Hwf'|]. split; [congruence|]. split.
    + intros x Hx. apply elem_of_cons in Hx as [->|Hx]; [|auto].
      exists (Hook.im_key ha). rewrite (Hframe' a Ha_notin), Hmem1.
      apply lookup_insert_eq.
    + intros x Hx. apply not_elem_of_cons in Hx as [Hne Hx].
      rewrite (Hframe' x Hx), Hmem1. apply lookup_insert_ne. congruence.
Qed.

Lemma reset_fold fuel :
  forall cnt k m ls,
    wf m ls ->
    (k + cnt = length ls)%nat ->
    (forall j, (j < k)%nat -> ls !! j = Some []) ->
    Forall (fun l => (length l <= fuel)%nat) ls ->
    exists m',
      fold_left (fun acc i => m0 ← acc; reset_bucket fuel i m0)
        (seq k cnt) (Some m) = Some m' /\
      wf m' (replicate (length ls) []) /\
      (forall x, (exists j l, ls !! j = Some l /\ x ∈ l) ->
                 exists key, nodes m' !! x = Some (Hook.mk None key false)) /\
      (forall x, (forall j l, ls !! j = Some l -> x ∉ l) ->
                 nodes m' !! x = nodes m !! x).
Proof.
  induction cnt as [|cnt IH]; intros k m ls Hwf Hk Hdone Hfuel.
  - exists m. simpl. split; [reflexivity|].
    assert (Hls : ls = replicate (length ls) []).
    { apply list_eq. intros j. destruct (decide (j < length ls)%nat) as [Hj|Hj].
      - rewrite Hdone by lia. symmetry. apply lookup_replicate_2. exact Hj.
      - rewrite (lookup_ge_None_2 ls j) by lia. symmetry.
        apply lookup_replicate_None. lia. }
    split; [rewrite <- Hls; exact Hwf|]. split; [|reflexivity].
    intros x (j & l & Hl & Hx). rewrite Hls in Hl.
    apply lookup_replicate in Hl as [-> _]. inversion Hx.
  - destruct (lookup_lt_is_Some_2 ls k ltac:(lia)) as [l Hl].
    assert (Hlen : (length l <= fuel)%nat).
    { rewrite Forall_forall in Hfuel. apply Hfuel.
      eapply list_elem_of_lookup_2; exact Hl. }
    destruct (reset_bucket_run l m ls k fuel Hwf Hl Hlen)
      as (m1 & Hrun & Hwf1 & _ & Hun1 & Hframe1).
    destruct (IH (S k) m1 (<[k := []]> ls) Hwf1) as (m' & Hfold & Hwf' & Hun' & Hframe').
    + rewrite length_insert. lia.
    + intros j Hj. destruct (decide (j = k)) as [->|Hne].
      * apply list_lookup_insert_eq. lia.
      * rewrite list_lookup_insert_ne by congruence. apply Hdone. lia.
    + apply Forall_insert; [exact Hfuel | simpl; lia].
    + rewrite length_insert in Hwf'.
      assert (Hsub : forall x j l0, <[k := []]> ls !! j = Some l0 -> x ∈ l0 ->
                ls !! j = Some l0 /\ j <> k).
      { intros x j l0 Hl0 Hx. destruct (decide (j = k)) as [->|Hne].
        - rewrite list_lookup_insert_eq in Hl0 by lia.
          injection Hl0 as <-. inversion Hx.
        - rewrite list_lookup_insert_ne in Hl0 by congruence. auto. }
      exists m'. simpl. rewrite Hrun. split; [exact Hfold|].
      split; [exact Hwf'|]. split.
      * intros x (j & l0 & Hl0 & Hx). destruct (decide (j = k)) as [->|Hne].
        -- assert (l0 = l) by congruence. subst l0.
           destruct (Hun1 x Hx) as [key Hkey]. exists key.
           rewrite Hframe'; [exact Hkey|].
           intros j l1 Hl1 Hx1. destruct (Hsub x j l1 Hl1 Hx1) as [Hl1' Hne].
           apply Hne. exact (wf_disjoint _ _ _ _ _ _ _ Hwf Hl1' Hl Hx1 Hx).
        -- apply Hun'. exists j, l0. split; [|exact Hx].
           rewrite list_lookup_insert_ne by congruence. exact Hl0.
      * intros x Hx. rewrite Hframe'.
        -- apply Hframe1. apply (Hx k l Hl).
        -- intros j l1 Hl1 Hx1. destruct (Hsub x j l1 Hl1 Hx1) as [Hl1' _].
           exact (Hx j l1 Hl1' Hx1).
Qed.

(** On a well-formed map [reset()] returns and leaves a well-formed
    empty map: [size()] is 0, every bucket has a null head and size 0,
    every node that was in a chain has [im_next] null and [im_linked]
    clear, and the other nodes are as they were. *)
Theorem reset_spec (fuel : nat) (m : t) (ls : list (list Z)) :
  wf m ls ->
  Forall (fun l => (length l <= fuel)%nat) ls ->
  exists m',
    reset fuel m = Some m' /\
    wf m' (replicate (length ls) []) /\
    size m' = 0 /\
    (forall i b, bucket_list m' !! i = Some b -> b = Bucket.mk None 0) /\
    (forall x, (exists j l, ls !! j = Some l /\ x ∈ l) ->
               exists key, nodes m' !! x = Some (Hook.mk None key false)) /\
    (forall x, (forall j l, ls !! j = Some l -> x ∉ l) ->
               nodes m' !! x = nodes m !! x).
Proof.
  intros Hwf Hfuel.
  destruct (reset_fold fuel (length ls) 0 m ls Hwf eq_refl
              ltac:(intros j Hj; lia) Hfuel)
    as (m' & Hfold & Hwf' & Hun & Hframe).
  exists m'. unfold reset.
  rewrite <- (wf_buckets _ _ Hwf), <- (wf_length _ _ Hwf).
  split; [exact Hfold|]. split; [exact Hwf'|]. split.
  - rewrite (wf_size_eq _ _ Hwf'), concat_replicate_nil. reflexivity.
  - split; [|split; assumption].
    intros i b Hb.
    assert (Hl : replicate (length ls) (@nil Z) !! i = Some []).
    { apply lookup_replicate_2. rewrite <- (length_replicate (length ls) (@nil Z)).
      rewrite (wf_length _ _ Hwf'). eapply lookup_lt_Some; exact Hb. }
    destruct (wf_chain _ _ Hwf' i b [] Hb Hl) as [Hchain Hsz].
    apply is_chain_head in Hchain. simpl in Hchain, Hsz.
    destruct b; simpl in *. subst. reflexivity.
Qed.

Lemma reset_spec_witness :
  exists m',
    reset 3 sample3 = Some m' /\
    wf m' (replicate (length sample3_chains) []) /\
    size m' = 0 /\
    (forall i b, bucket_list m' !! i = Some b -> b = Bucket.mk None 0) /\
    (forall x, (exists j l, sample3_chains !! j = Some l /\ x ∈ l) ->
               exists key, nodes m' !! x = Some (Hook.mk None key false)) /\
    (forall x, (forall j l, sample3_chains !! j = Some l -> x ∉ l) ->
               nodes m' !! x = nodes sample3 !! x).
Proof.
  apply (reset_spec 3 sample3 sample3_chains).
  - apply wf_check_sound. reflexivity.
  - constructor; [simpl; lia|]. constructor; [simpl; lia|]. constructor.
Defined.

Lemma find_bucket_first key mem cur l :
  is_chain mem cur l ->
  forall fuel, (length l <= fuel)%nat ->
    find_bucket fuel mem cur key = Some (first_key mem key l).
Proof.
  induction 1 as [|a h l Ha Hl IH]; intros fuel Hfuel.
  - destruct fuel; reflexivity.
  - destruct fuel as [|fuel]; simpl in Hfuel; [lia|].
    simpl. unfold key_at. rewrite Ha. simpl.
    destruct (decide (Hook.im_key h = key)) as [Hk|Hk].
    + rewrite !bool_decide_eq_true_2 by congruence. reflexivity.
    + rewrite !bool_decide_eq_false_2 by congruence. apply IH. lia.
Qed.

Lemma first_key_ext mem mem' key (l : list Z) :
  (forall x, x ∈ l -> key_at mem' x = key_at mem x) ->
  first_key mem' key l = first_key mem key l.
Proof.
  induction l as [|a l IH]; intros Hsame; simpl; [reflexivity|].
  rewrite (Hsame a) by left. rewrite IH; [reflexivity|].
  intros x Hx. apply Hsame. right. exact Hx.
Qed.

Lemma first_key_drop mem key (l1 l2 : list Z) a :
  key_at mem a <> Some key ->
  first_key mem key (l1 ++ a :: l2) = first_key mem key (l1 ++ l2).
Proof.
  intros Hne. induction l1 as [|x l1 IH]; simpl.
  - rewrite bool_decide_eq_false_2 by exact Hne. reflexivity.
  - rewrite IH. reflexivity.
Qed.

(** [find] on a well-formed map, as the first node of the key's chain
    that carries the key. *)
Lemma find_first fuel key m ls l :
  wf m ls ->
  ls !! bucket_index key m = Some l ->
  (length l <= fuel)%nat ->
  find fuel key m = Some (first_key (nodes m) key l).
Proof.
  intros Hwf Hl Hfuel.
  destruct (wf_lookup_bucket _ _ _ _ Hwf Hl) as [b Hb].
  destruct (wf_chain _ _ Hwf _ b l Hb Hl) as [Hchain _].
  pose proof (wf_size _ _ Hwf) as Hpos.
  unfold find. rewrite bool_decide_eq_false_2 by lia.
  rewrite Hb. simpl. apply find_bucket_first; assumption.
Qed.

(** A [put] that returned [true] on a well-formed map does not change
    what [find] returns for any other key. *)
Theorem find_other_after_put (fuel : nat) (key key' value : Z) (m m' : t)
    (ls : list (list Z)) (v : Hook.t) (l l' : list Z) :
  wf m ls ->
  nodes m !! value = Some v ->
  ls !! bucket_index key m = Some l ->
  ls !! bucket_index key' m = Some l' ->
  (length l <= fuel)%nat ->
  (length l' <= fuel)%nat ->
  elements m < SIZE_MAX ->
  key' <> key ->
  put fuel key value m = Some (true, m') ->
  find (S fuel) key' m' = find fuel key' m.
Proof.
  intros Hwf Hv Hl Hl' Hfuel Hfuel' Hroom Hne Hput.
  destruct (put_run fuel key value m ls v l Hwf Hv Hl Hfuel Hroom)
    as [[_ Hrun] | (Hlinked & _ & m'' & b & Hrun & Hwf' & _ & Hmem & Hbls)];
    rewrite Hrun in Hput; [discriminate|].
  injection Hput as ->.
  pose proof (wf_unlinked_free _ _ _ _ Hwf Hv Hlinked) as Hfree.
  assert (Hidx : bucket_index key' m' = bucket_index key' m)
    by (unfold bucket_index; rewrite Hbls; reflexivity).
  assert (Hval : key_at (nodes m') value = Some key)
    by (unfold key_at; rewrite Hmem, lookup_insert_eq; reflexivity).
  assert (Hsame : forall l0 : list Z, value ∉ l0 ->
    first_key (nodes m') key' l0 = first_key (nodes m) key' l0).
  { intros l0 Hnin. apply first_key_ext. intros x Hx. unfold key_at.
    rewrite Hmem, lookup_insert_ne; [reflexivity|]. intros <-. exact (Hnin Hx). }
  rewrite (find_first fuel key' m ls l' Hwf Hl' Hfuel').
  destruct (decide (bucket_index key' m = bucket_index key m)) as [Heq|Hdiff].
  - assert (l' = l) by congruence. subst l'.
    rewrite (find_first (S fuel) key' m' _ (value :: l) Hwf').
    + simpl. rewrite Hval.
      rewrite bool_decide_eq_false_2 by congruence.
      rewrite (Hsame l (Hfree _ l Hl)). reflexivity.
    + rewrite Hidx, Heq. apply list_lookup_insert_eq.
      eapply lookup_lt_Some; exact Hl.
    + simpl. lia.
  - rewrite (find_first (S fuel) key' m' _ l' Hwf').
    + rewrite (Hsame l' (Hfree _ l' Hl')). reflexivity.
    + rewrite Hidx, list_lookup_insert_ne by congruence. exact Hl'.
    + lia.
Qed.

Lemma find_other_after_put_witness :
  find 4 5 (snd (default (false, sample3) (put 3 9 100 sample3)))
  = find 3 5 sample3.
Proof.
  apply (find_other_after_put 3 9 5 100 sample3 _ sample3_chains
           (Hook.mk None 0 false) [400; 300; 200] [400; 300; 200]).
  - apply wf_check_sound. reflexivity.
  - reflexivity.
  - reflexivity.
  - reflexivity.
  - simpl. lia.
  - simpl. lia.
  - unfold SIZE_MAX. simpl. lia.
  - lia.
  - reflexivity.
Defined.

(** A [remove] on a well-formed map does not change what [find]
    returns for any other key. *)
Theorem find_other_after_remove (fuel : nat) (key key' : Z) (m m' : t)
    (ls : list (list Z)) (l l' : list Z) (r : bool) :
  wf m ls ->
  ls !! bucket_index key m = Some l ->
  ls !! bucket_index key' m = Some l' ->
  (length l <= fuel)%nat ->
  (length l' <= fuel)%nat ->
  key' <> key ->
  remove fuel key m = Some (r, m') ->
  find fuel key' m' = find fuel key' m.
Proof.
  intros Hwf Hl Hl' Hfuel Hfuel' Hne Hrem.
  destruct (remove_run fuel key m ls l Hwf Hl Hfuel)
    as [[_ Hrun] |
        (l1 & a & l2 & ha & m'' & -> & Ha & Hk & _ & Hrun & Hwf' & Hbls & _
         & _ & Hkeys)]; rewrite Hrun in Hrem; injection Hrem as <- <-;
    [reflexivity|].
  assert (Hidx : bucket_index key' m'' = bucket_index key' m)
    by (unfold bucket_index; rewrite Hbls; reflexivity).
  assert (Hka : key_at (nodes m) a <> Some key').
  { unfold key_at. rewrite Ha. simpl. congruence. }
  destruct (wf_lookup_bucket _ _ _ _ Hwf Hl) as [b Hb].
  destruct (wf_chain _ _ Hwf _ b _ Hb Hl) as [Hchain _].
  pose proof (is_chain_NoDup _ _ _ Hchain) as Hnd.
  assert (Hin : a ∈ l1 ++ a :: l2) by (apply elem_of_app; right; left).
  rewrite (find_first fuel key' m ls l' Hwf Hl' Hfuel').
  destruct (decide (bucket_index key' m = bucket_index key m)) as [Heq|Hdiff].
  - assert (l' = l1 ++ a :: l2) by congruence. subst l'.
    rewrite (find_first fuel key' m'' _ (l1 ++ l2) Hwf').
    + rewrite (first_key_drop _ _ _ _ _ Hka). f_equal.
      apply first_key_ext. intros x Hx. apply Hkeys. intros ->.
      apply NoDup_app in Hnd as (_ & Hdisj & Hnd).
      apply NoDup_cons in Hnd as [Hnin _].
      apply elem_of_app in Hx as [Hx|Hx]; [|exact (Hnin Hx)].
      apply (Hdisj a Hx). left.
    + rewrite Hidx, Heq. apply list_lookup_insert_eq.
      eapply lookup_lt_Some; exact Hl.
    + rewrite length_app in *. simpl in Hfuel'. lia.
  - rewrite (find_first fuel key' m'' _ l' Hwf').
    + f_equal. apply first_key_ext. intros x Hx. apply Hkeys. intros ->.
      apply Hdiff. exact (wf_disjoint _ _ _ _ _ _ _ Hwf Hl' Hl Hx Hin).
    + rewrite Hidx, list_lookup_insert_ne by congruence. exact Hl'.
    + exact Hfuel'.
Qed.

Lemma find_other_after_remove_witness :
  find 3 3 (snd (default (false, sample3) (remove 3 5 sample3)))
  = find 3 3 sample3.
Proof.
  apply (find_other_after_remove 3 5 3 sample3 _ sample3_chains
           [400; 300; 200] [400; 300; 200] true).
  - apply wf_check_sound. reflexivity.
  - reflexivity.
  - reflexivity.
  - simpl. lia.
  - simpl. lia.
  - lia.
  - reflexivity.
Defined.

(** More fuel does not change a run that returned. *)
Lemma find_bucket_mono key mem :
  forall fuel cur r,
    find_bucket fuel mem cur key = Some r ->
    forall fuel', (fuel <= fuel')%nat -> find_bucket fuel' mem cur key = Some r.
Proof.
  induction fuel as [|fuel IH]; intros [a|] r Hf fuel' Hle; simpl in Hf;
    try discriminate; try (destruct fuel'; exact Hf).
  destruct fuel' as [|fuel']; [lia|]. simpl.
  destruct (mem !! a) as [h|]; simpl in *; [|discriminate].
  destruct (bool_decide (Hook.im_key h = key)); [exact Hf|].
  apply (IH _ _ Hf). lia.
Qed.

Lemma find_bucket_prev_mono key mem :
  forall fuel cur prev r,
    find_bucket_prev fuel mem cur key prev = Some r ->
    forall fuel', (fuel <= fuel')%nat ->
      find_bucket_prev fuel' mem cur key prev = Some r.
Proof.
  induction fuel as [|fuel IH]; intros [a|] prev r Hf fuel' Hle; simpl in Hf;
    try discriminate; try (destruct fuel'; exact Hf).
  destruct fuel' as [|fuel']; [lia|]. simpl.
  destruct (mem !! a) as [h|]; simpl in *; [|discriminate].
  destruct (bool_decide (Hook.im_key h = key)); [exact Hf|].
  apply (IH _ _ _ Hf). lia.
Qed.

Lemma reset_bucket_mono i :
  forall fuel m m',
    reset_bucket fuel i m = Some m' ->
    forall fuel', (fuel <= fuel')%nat -> reset_bucket fuel' i m = Some m'.
Proof.
  induction fuel as [|fuel IH]; intros m m' Hr fuel' Hle; simpl in Hr.
  - destruct (bucket_list m !! i) as [b|] eqn:Hb; simpl in Hr; [|discriminate].
    destruct (Bucket.list b) eqn:Hlist; [discriminate|].
    destruct fuel'; simpl; rewrite Hb; simpl; rewrite Hlist; exact Hr.
  - destruct fuel' as [|fuel']; [lia|]. simpl.
    destruct (bucket_list m !! i) as [b|]; simpl in *; [|discriminate].
    destruct (Bucket.list b); [|exact Hr].
    destruct (unlink_front i m) as [m1|]; simpl in *; [|discriminate].
    apply (IH _ _ Hr). lia.
Qed.

Lemma put_mono fuel fuel' key value m x :
  put fuel key value m = Some x -> (fuel <= fuel')%nat ->
  put fuel' key value m = Some x.
Proof.
  unfold put. intros Hp Hle.
  destruct (nodes m !! value) as [v|]; simpl in *; [|discriminate].
  destruct (sanity_check v); [|exact Hp].
  destruct (bool_decide (bucket_list_size m = 0)); [discriminate|].
  destruct (bucket_list m !! bucket_index key m) as [b|]; simpl in *;
    [|discriminate].
  destruct (find_bucket fuel (nodes m) (Bucket.list b) key) as [found|] eqn:Hf;
    simpl in Hp; [|discriminate].
  rewrite (find_bucket_mono _ _ _ _ _ Hf fuel' Hle). exact Hp.
Qed.

Lemma remove_mono fuel fuel' key m x :
  remove fuel key m = Some x -> (fuel <= fuel')%nat ->
  remove fuel' key m = Some x.
Proof.
  unfold remove. intros Hr Hle.
  destruct (bool_decide (bucket_list_size m = 0)); [discriminate|].
  destruct (bucket_list m !! bucket_index key m) as [b|]; simpl in *;
    [|discriminate].
  destruct (find_bucket_prev fuel (nodes m) (Bucket.list b) key None)
    as [found|] eqn:Hf; simpl in Hr; [|discriminate].
  rewrite (find_bucket_prev_mono _ _ _ _ _ _ Hf fuel' Hle). exact Hr.
Qed.

Lemma reset_mono fuel fuel' m m' :
  reset fuel m = Some m' -> (fuel <= fuel')%nat -> reset fuel' m = Some m'.
Proof.
  unfold reset. intros Hr Hle. revert Hr.
  generalize (seq 0 (Z.to_nat (bucket_list_size m))) as idxs.
  generalize (Some m) as acc.
  intros acc idxs. revert acc. induction idxs as [|i idxs IH]; simpl; intros acc Hr.
  - exact Hr.
  - destruct acc as [m0|]; simpl in *.
    + destruct (reset_bucket fuel i m0) as [m1|] eqn:Hb.
      * rewrite (reset_bucket_mono _ _ _ _ Hb fuel' Hle). apply IH. exact Hr.
      * exfalso. clear -Hr. induction idxs as [|j idxs IHi]; simpl in Hr;
          [discriminate | auto].
    + exfalso. clear -Hr. induction idxs as [|j idxs IHi]; simpl in Hr;
        [discriminate | auto].
Qed.

Lemma fuel_for_all (ls : list (list Z)) :
  exists n, Forall (fun l => (length l <= n)%nat) ls.
Proof.
  induction ls as [|l ls [n Hn]]; [exists O; constructor|].
  exists (max n (length l)). constructor; [lia|].
  eapply Forall_impl; [exact Hn|]. simpl. intros l0 Hl0. lia.
Qed.

(** One call that returned, on a well-formed map with room for one
    more element, leaves a well-formed map with at most one element
    more. *)
Lemma step_keeps_wf fuel o m m' ls :
  wf m ls ->
  elements m < SIZE_MAX ->
  step fuel o m = Some m' ->
  exists ls', wf m' ls' /\ elements m' <= elements m + 1.
Proof.
  intros Hwf Hroom Hstep. destruct o as [key value|key|]; simpl in Hstep.
  - destruct (put fuel key value m) as [[r m1]|] eqn:Hput; simpl in Hstep;
      [|discriminate].
    injection Hstep as ->.
    destruct (wf_lookup_key _ _ key Hwf) as [l Hl].
    assert (Hv : exists v, nodes m !! value = Some v).
    { unfold put in Hput. destruct (nodes m !! value) as [v|]; [eauto|].
      discriminate. }
    destruct Hv as [v Hv].
    pose proof (put_mono _ (max fuel (length l)) _ _ _ _ Hput ltac:(lia)) as Hput'.
    destruct (put_run (max fuel (length l)) key value m ls v l
                Hwf Hv Hl ltac:(lia) Hroom)
      as [[_ Hrun] | (_ & _ & m2 & b & Hrun & Hwf' & _)];
      rewrite Hrun in Hput'; injection Hput' as <- <-.
    + exists ls. split; [exact Hwf | lia].
    + eexists. split; [exact Hwf'|].
      rewrite (wf_elements _ _ Hwf), (wf_elements _ _ Hwf').
      pose proof (length_concat_insert (value :: l) ls _ l Hl) as Hlen.
      simpl in Hlen. lia.
  - destruct (remove fuel key m) as [[r m1]|] eqn:Hrem; simpl in Hstep;
      [|discriminate].
    injection Hstep as ->.
    destruct (wf_lookup_key _ _ key Hwf) as [l Hl].
    pose proof (remove_mono _ (max fuel (length l)) _ _ _ Hrem ltac:(lia)) as Hrem'.
    destruct (remove_run (max fuel (length l)) key m ls l Hwf Hl ltac:(lia))
      as [[_ Hrun] |
          (l1 & a & l2 & ha & m2 & -> & _ & _ & _ & Hrun & Hwf' & _)];
      rewrite Hrun in Hrem'; injection Hrem' as <- <-.
    + exists ls. split; [exact Hwf | lia].
    + eexists. split; [exact Hwf'|].
      rewrite (wf_elements _ _ Hwf), (wf_elements _ _ Hwf').
      pose proof (length_concat_insert (l1 ++ l2) ls _ _ Hl) as Hlen.
      rewrite !length_app in Hlen. simpl in Hlen. lia.
  - destruct (fuel_for_all ls) as [n Hn].
    pose proof (reset_mono _ (max fuel n) _ _ Hstep ltac:(lia)) as Hreset.
    destruct (reset_fold (max fuel n) (length ls) 0 m ls Hwf eq_refl
                ltac:(intros j Hj; lia)) as (m2 & Hfold & Hwf' & _).
    { eapply Forall_impl; [exact Hn|]. simpl. intros l0 Hl0. lia. }
    unfold reset in Hreset.
    rewrite <- (wf_buckets _ _ Hwf), <- (wf_length _ _ Hwf) in Hreset.
    rewrite Hfold in Hreset. injection Hreset as <-.
    eexists. split; [exact Hwf'|].
    rewrite (wf_elements _ _ Hwf'), (wf_elements _ _ Hwf), concat_replicate_nil.
    simpl. lia.
Qed.

(** Any sequence of [put], [remove] and [reset] calls that returns,
    started on a well-formed map with room for as many elements as the
    sequence is long, ends on a well-formed map: every bucket heads and
    counts its chain, and [size()] is the number of linked nodes. *)
Theorem run_keeps_wf (fuel : nat) (ops : list Op) :
  forall (m m' : t) (ls : list (list Z)),
    wf m ls ->
    elements m + Z.of_nat (length ops) <= SIZE_MAX ->
    run fuel ops m = Some m' ->
    exists ls', wf m' ls' /\ size m' = Z.of_nat (length (concat ls')).
Proof.
  induction ops as [|o ops IH]; intros m m' ls Hwf Hroom Hrun; simpl in Hrun.
  - injection Hrun as <-. exists ls. split; [exact Hwf|].
    apply (wf_size_eq _ _ Hwf).
  - destruct (step fuel o m) as [m1|] eqn:Hstep; simpl in Hrun; [|discriminate].
    simpl length in Hroom.
    destruct (step_keeps_wf fuel o m m1 ls Hwf ltac:(lia) Hstep)
      as (ls1 & Hwf1 & Hel1).
    apply (IH m1 m' ls1 Hwf1); [lia | exact Hrun].
Qed.

Lemma run_keeps_wf_witness :
  exists ls',
    wf (default sample3 (run 4 [OpPut 9 100; OpRemove 5; OpReset; OpPut 2 300]
                           sample3)) ls' /\
    size (default sample3 (run 4 [OpPut 9 100; OpRemove 5; OpReset; OpPut 2 300]
                             sample3))
    = Z.of_nat (length (concat ls')).
Proof.
  apply (run_keeps_wf 4 [OpPut 9 100; OpRemove 5; OpReset; OpPut 2 300]
           sample3 _ sample3_chains).
  - apply wf_check_sound. reflexivity.
  - unfold SIZE_MAX. simpl. lia.
  - reflexivity.
Defined.

End IntrusiveMapLaws.

(** ** Laws of the stack parser *)

Module StackParserLaws.

Import stack_ip StackParser.

Section Laws.

Variables Ethernet Vlan IPv4 Gre Udp Sctp : Layer.t.

Abbreviation validates := (StackParser.validates Ethernet Vlan IPv4 Gre Udp Sctp).
Abbreviation parse := (StackParser.parse Ethernet Vlan IPv4 Gre Udp Sctp).
Abbreviation next := (StackParser.next Ethernet Vlan IPv4 Gre Udp Sctp).
Abbreviation next_n := (StackParser.next_n Ethernet Vlan IPv4 Gre Udp Sctp).
Abbreviation header := (StackParser.header Ethernet Vlan IPv4 Gre Udp Sctp).
Abbreviation payload := (StackParser.payload Ethernet Vlan IPv4 Gre Udp Sctp).

Lemma next_n_at_END s : proto s = END -> forall n, next_n n s = s.
Proof.
  intros HEND. induction n as [|n IH]; simpl; [reflexivity|].
  rewrite (StackParserFacts.next_at_END _ _ _ _ _ _ s HEND). exact IH.
Qed.

Lemma null_views_at_END s :
  proto s = END ->
  header s = mkMCArea nullptr 0 /\ payload s = mkMCArea nullptr 0.
Proof.
  destruct s as [c p]. simpl. intros ->. split; reflexivity.
Qed.

(** When [parse()] returns [false] the parser is at [END] on an
    unmoved reader: [header()] and [payload()] are null views of
    length 0, [packet()] is the view it was, and every [next()]
    returns [END] and changes nothing. *)
Theorem failed_parse_is_END (proto_first : Protocol) (s : t) :
  fst (parse proto_first s) = false ->
  let s' := snd (parse proto_first s) in
  protocol s' = END /\
  header s' = mkMCArea nullptr 0 /\
  payload s' = mkMCArea nullptr 0 /\
  packet s' = packet s /\
  fst (next s') = END /\
  forall n, next_n n s' = s'.
Proof.
  rewrite StackParserFacts.parse_run. simpl. intros Hfalse.
  apply bool_decide_eq_false in Hfalse.
  assert (HEND : (if validates proto_first (base s) then proto_first else END)
                 = END).
  { destruct (decide ((if validates proto_first (base s)
                       then proto_first else END) = END)) as [He|He];
      [exact He | contradiction]. }
  rewrite HEND.
  set (s' := {| base := base s; proto := END |}).
  split; [reflexivity|].
  destruct (null_views_at_END s' eq_refl) as [Hh Hp].
  split; [exact Hh|]. split; [exact Hp|]. split; [reflexivity|].
  split; [reflexivity|]. apply next_n_at_END. reflexivity.
Qed.

(** When [parse()] returns [true] the current protocol is the one asked
    for, one of the six supported; [header()] starts at the reader's
    head, [payload()] starts where the header ends, and both lengths
    are 32-bit values. *)
Theorem successful_parse_views (proto_first : Protocol) (s : t) :
  fst (parse proto_first s) = true ->
  let s' := snd (parse proto_first s) in
  protocol s' = proto_first /\
  supported proto_first = true /\
  validates proto_first (base s) = true /\
  area_ptr (header s') = Reader.m_head (base s) /\
  area_ptr (payload s') = Reader.m_head (base s) + area_len (header s') /\
  0 <= area_len (header s') < 2 ^ 32 /\
  0 <= area_len (payload s') < 2 ^ 32.
Proof.
  rewrite StackParserFacts.parse_run. simpl. intros Htrue.
  apply bool_decide_eq_true in Htrue.
  destruct (validates proto_first (base s)) eqn:Hv; [|contradiction].
  assert (Hrange : forall z, 0 <= to_unsigned z < 2 ^ 32).
  { intros z. unfold to_unsigned. apply Z.mod_pos_bound. lia. }
  destruct proto_first; try contradiction; simpl;
    (split_and!; try reflexivity; apply Hrange).
Qed.

(** When [next()] returns [END] the traversal is over: [header()] and
    [payload()] are null views of length 0 and further [next()] calls
    return [END] and change nothing. *)
Theorem next_END_is_final (s : t) :
  fst (next s) = END ->
  let s' := snd (next s) in
  protocol s' = END /\
  header s' = mkMCArea nullptr 0 /\
  payload s' = mkMCArea nullptr 0 /\
  forall n, next_n n s' = s' /\ fst (next (next_n n s')) = END.
Proof.
  rewrite StackParserFacts.next_run. simpl. intros HEND. rewrite HEND.
  set (s' := {| base := _; proto := END |}).
  split; [reflexivity|].
  destruct (null_views_at_END s' eq_refl) as [Hh Hp].
  split; [exact Hh|]. split; [exact Hp|].
  intros n. rewrite (next_n_at_END s' eq_refl n).
  split; reflexivity.
Qed.

End Laws.

Lemma failed_parse_is_END_witness :
  protocol (snd (Samples.parse L2_ETHERNET Samples.fresh_runt)) = END /\
  Samples.header (snd (Samples.parse L2_ETHERNET Samples.fresh_runt))
  = mkMCArea nullptr 0 /\
  Samples.payload (snd (Samples.parse L2_ETHERNET Samples.fresh_runt))
  = mkMCArea nullptr 0 /\
  packet (snd (Samples.parse L2_ETHERNET Samples.fresh_runt))
  = packet Samples.fresh_runt.
Proof.
  destruct (failed_parse_is_END (Layer.of_spec Samples.Ethernet)
    (Layer.of_spec Samples.Vlan) (Layer.of_spec Samples.IPv4)
    (Layer.of_spec Samples.Gre) (Layer.of_spec Samples.Udp)
    (Layer.of_spec Samples.Sctp) L2_ETHERNET Samples.fresh_runt)
    as (H1 & H2 & H3 & H4 & _).
  - reflexivity.
  - repeat split; assumption.
Defined.

Lemma successful_parse_views_witness :
  protocol Samples.at_ethernet = L2_ETHERNET /\
  area_ptr (Samples.header Samples.at_ethernet) = 4096 /\
  area_ptr (Samples.payload Samples.at_ethernet)
  = 4096 + area_len (Samples.header Samples.at_ethernet).
Proof.
  destruct (successful_parse_views (Layer.of_spec Samples.Ethernet)
    (Layer.of_spec Samples.Vlan) (Layer.of_spec Samples.IPv4)
    (Layer.of_spec Samples.Gre) (Layer.of_spec Samples.Udp)
    (Layer.of_spec Samples.Sctp) L2_ETHERNET Samples.fresh)
    as (H1 & _ & _ & H4 & H5 & _).
  - reflexivity.
  - repeat split; assumption.
Defined.

Lemma next_END_is_final_witness :
  protocol (snd (Samples.next Samples.at_udp)) = END /\
  Samples.header (snd (Samples.next Samples.at_udp)) = mkMCArea nullptr 0 /\
  Samples.payload (snd (Samples.next Samples.at_udp)) = mkMCArea nullptr 0.
Proof.
  destruct (next_END_is_final (Layer.of_spec Samples.Ethernet)
    (Layer.of_spec Samples.Vlan) (Layer.of_spec Samples.IPv4)
    (Layer.of_spec Samples.Gre) (Layer.of_spec Samples.Udp)
    (Layer.of_spec Samples.Sctp) Samples.at_udp)
    as (H1 & H2 & H3 & _).
  - reflexivity.
  - repeat split; assumption.
Defined.

End StackParserLaws.
